(** * MDP value iteration and policy iteration ([assignment1/vi_and_pi.bak.py])

    A shallow embedding of the four dynamic-programming routines of the
    assignment and of the adapter they share, followed by the properties
    the specification states about them.

    Conventions of the embedding.
    - numpy [float64] values are exact rationals ([Q]); rounding, overflow
      and NaN are outside the model.  Integer arrays hold [Z].
    - The value functions and policies, which are passed between the
      routines, aliased and written in place, live in a store ([world]);
      a name bound to one is a location.  [V = value_function] copies the
      location (an alias); [np.zeros], [x.copy()] and the binding of a
      computed array to such a name allocate.  The arrays of the adapter
      and the temporaries of an expression are never written once built
      and are plain values.
    - Python exceptions are values of [exn]; a [while True] loop takes an
      iteration budget and answers [Looping] when the budget is used up
      before the loop has left.
    - A dictionary is a [gmap]; state and action keys are naturals. *)

From Stdlib Require Import QArith Qabs Lia Lqa.
From stdpp Require Import base list gmap.

Close Scope Q_scope.

(** ** Exceptions and results *)

(** The exceptions of the embedding: the four the interpreter and numpy can
    raise on the paths modelled here, and the three error kinds the
    specification names. *)
Inductive exn : Type :=
  | KeyError
  | IndexError
  | ValueError
  | NameError
  | ModelShapeError
  | InvalidConfiguration
  | NonConvergence.

Inductive result (A : Type) : Type :=
  | Ok (a : A)
  | Err (e : exn).
Arguments Ok {A} a.
Arguments Err {A} e.

#[export] Instance result_ret : MRet result := @Ok.
#[export] Instance result_bind : MBind result := fun A B k r =>
  match r with
  | Ok a => k a
  | Err e => Err e
  end.

Definition from_option {A} (e : exn) (o : option A) : result A :=
  match o with
  | Some a => Ok a
  | None => Err e
  end.

(** [for x in xs: acc = body(acc, x)], leaving at the first exception. *)
Fixpoint for_each {A S} (xs : list A) (body : S -> A -> result S) (acc : S)
  : result S :=
  match xs with
  | [] => Ok acc
  | x :: rest => acc' ← body acc x; for_each rest body acc'
  end.

Fixpoint map_result {A B} (f : A -> result B) (xs : list A) : result (list B) :=
  match xs with
  | [] => Ok []
  | x :: rest => y ← f x; ys ← map_result f rest; Ok (y :: ys)
  end.

(** ** The numpy fragment *)

Definition Qltb (a b : Q) : bool := negb (Qle_bool b a).

(** [np.maximum] on two scalars. *)
Definition Qmaximum (a b : Q) : Q := if Qle_bool a b then b else a.

(** [float -> int] of [astype(int)]: truncation towards zero. *)
Definition Qtruncate (q : Q) : Z := Z.quot (Qnum q) (Z.pos (Qden q)).

Definition np_zeros (n : nat) : list Q := replicate n 0%Q.
Definition np_zeros_int (n : nat) : list Z := replicate n 0%Z.

(** [np.arange(n)] *)
Definition np_arange (n : nat) : list Z := Z.of_nat <$> seq 0 n.

(** [xs[i]] for an integer [i]: negative indices count from the end, an
    index outside [-len, len) raises IndexError. *)
Definition np_index {A} (xs : list A) (i : Z) : result A :=
  let n := Z.of_nat (length xs) in
  if (0 <=? i)%Z then from_option IndexError (xs !! Z.to_nat i)
  else if (- n <=? i)%Z then from_option IndexError (xs !! Z.to_nat (n + i))
  else Err IndexError.

(** [xs[idx]] with an integer array [idx], and [np.take(xs, idx)] on the
    flattened [xs]: one indexing per entry. *)
Definition np_take {A} (xs : list A) (idx : list Z) : result (list A) :=
  map_result (np_index xs) idx.

(** An elementwise binary operation on two one-dimensional arrays, with
    numpy's broadcasting: a length-one operand is stretched, otherwise the
    lengths must agree (ValueError). *)
Definition np_binop {A B C} (f : A -> B -> C) (xs : list A) (ys : list B)
  : result (list C) :=
  match xs, ys with
  | [x], _ => Ok (f x <$> ys)
  | _, [y] => Ok ((fun x => f x y) <$> xs)
  | _, _ => if Nat.eqb (length xs) (length ys) then Ok (zip_with f xs ys)
            else Err ValueError
  end.

(** The same with [out=]: the result must have the shape of [out]. *)
Definition np_binop_out {A B C D} (f : A -> B -> C) (out : list D)
  (xs : list A) (ys : list B) : result (list C) :=
  x ← np_binop f xs ys;
  if Nat.eqb (length x) (length out) then Ok x else Err ValueError.

(** A function applied to every entry of an array of shape [(nS, nA)]. *)
Definition np_map2 {A B} (f : A -> B) (xs : list (list A)) : list (list B) :=
  (fun row : list A => f <$> row) <$> xs.

(** An elementwise binary operation on two arrays of one shape [(nS, nA)]. *)
Definition np_binop2 {A B C} (f : A -> B -> C) (xs : list (list A))
  (ys : list (list B)) : list (list C) :=
  zip_with (zip_with f) xs ys.

(** [np.linalg.norm(xs, ord=np.inf)], that is [abs(xs).max()]; the maximum
    of an empty array raises ValueError. *)
Definition np_max (xs : list Q) : result Q :=
  match xs with
  | [] => Err ValueError
  | x :: rest => Ok (fold_left Qmaximum rest x)
  end.

Definition norm_inf (xs : list Q) : result Q := np_max (Qabs <$> xs).

(** [np.max(rows, axis=1)] on an array of shape [(nS, nA)]: ValueError
    when the reduced axis is empty. *)
Definition np_max_axis1 (nA : nat) (rows : list (list Q)) : result (list Q) :=
  if Nat.eqb nA 0 then Err ValueError else map_result np_max rows.

(** [np.argmax] of one row, scanning from the left: [best] is the index
    of the largest value so far and moves only on a strictly larger one. *)
Fixpoint argmax_from (best : nat) (bestv : Q) (i : nat) (xs : list Q) : nat :=
  match xs with
  | [] => best
  | x :: rest =>
      if Qltb bestv x then argmax_from i x (S i) rest
      else argmax_from best bestv (S i) rest
  end.

Definition np_argmax (xs : list Q) : result Z :=
  match xs with
  | [] => Err ValueError
  | x :: rest => Ok (Z.of_nat (argmax_from 0 x 1 rest))
  end.

(** [np.argmax(rows, axis=1)] *)
Definition np_argmax_axis1 (nA : nat) (rows : list (list Q)) : result (list Z) :=
  if Nat.eqb nA 0 then Err ValueError else map_result np_argmax rows.

(** [np.array_equal] on two integer arrays. *)
Definition np_array_equal (xs ys : list Z) : bool := bool_decide (xs = ys).

(** ** The transition model *)

(** One outcome [(probability, nextstate, reward, terminal)]. *)
Record transition : Type := {
  probability : Q;
  nextstate : Z;
  reward : Q;
  terminal : bool
}.

(** [P[state][action]] is the list of outcomes. *)
Abbreviation model := (gmap nat (gmap nat (list transition))).

(** The three dense arrays [prob], [s_next] and [r], each of shape [(nS, nA)]. *)
Record tensors : Type := {
  prob : list (list Q);
  s_next : list (list Z);
  r : list (list Q)
}.

(** [np.array(t[0:4])]: the four fields as floats. *)
Definition transition_row (t : transition) : list Q :=
  [probability t; inject_Z (nextstate t); reward t;
   if terminal t then 1%Q else 0%Q].

(** [P[s][a][0]] *)
Definition first_outcome (P : model) (s a : nat) : result transition :=
  Ps ← from_option KeyError (P !! s);
  Psa ← from_option KeyError (Ps !! a);
  from_option IndexError (Psa !! 0%nat).

(** [T[s][a] = row] on a tensor of shape [(nS, nA, 4)], [s] and [a] in range. *)
Definition tensor_set (T : list (list (list Q))) (s a : nat) (row : list Q)
  : list (list (list Q)) :=
  match T !! s with
  | Some Ts => <[s := <[a := row]> Ts]> T
  | None => T
  end.

(** [T[:,:,k]] *)
Definition tensor_slice (k : nat) (T : list (list (list Q))) : list (list Q) :=
  np_map2 (fun row => nth k row 0%Q) T.

Definition p_to_tensor (P : model) (nS nA : nat) : result tensors :=
  let P_tensor := replicate nS (replicate nA (replicate 4 0%Q)) in
  P_tensor ← for_each (seq 0 nS) (fun T s =>
                for_each (seq 0 nA) (fun T a =>
                  t ← first_outcome P s a;
                  Ok (tensor_set T s a (transition_row t))) T) P_tensor;
  Ok {| prob := tensor_slice 0 P_tensor;
        s_next := np_map2 Qtruncate (tensor_slice 1 P_tensor);
        r := tensor_slice 2 P_tensor |}.

(** ** The store of named arrays *)

(** Float arrays, integer arrays, and what [print] has written. *)
Record world : Type := {
  farrs : list (list Q);
  iarrs : list (list Z);
  stdout : list (list Z)
}.

Abbreviation floc := nat.
Abbreviation iloc := nat.

(** The end of a run from some store: a value and the store it leaves, an
    exception, or a loop that has used up its iteration budget. *)
Inductive run (A : Type) : Type :=
  | Ret (a : A) (w : world)
  | Raise (e : exn)
  | Looping.
Arguments Ret {A} a w.
Arguments Raise {A} e.
Arguments Looping {A}.

Definition M (A : Type) : Type := world -> run A.

#[export] Instance M_ret : MRet M := fun A a w => Ret a w.
#[export] Instance M_bind : MBind M := fun A B k m w =>
  match m w with
  | Ret a w' => k a w'
  | Raise e => Raise e
  | Looping => Looping
  end.

Definition lift {A} (x : result A) : M A := fun w =>
  match x with
  | Ok a => Ret a w
  | Err e => Raise e
  end.

Definition looping {A} : M A := fun _ => Looping.

Definition new_float (xs : list Q) : M floc := fun w =>
  Ret (length (farrs w))
      {| farrs := farrs w ++ [xs]; iarrs := iarrs w; stdout := stdout w |}.

Definition get_float (l : floc) : M (list Q) := fun w =>
  match farrs w !! l with
  | Some xs => Ret xs w
  | None => Raise NameError
  end.

(** Writing into the array at [l], as [out=] does. *)
Definition set_float (l : floc) (xs : list Q) : M unit := fun w =>
  match farrs w !! l with
  | Some _ =>
      Ret tt {| farrs := <[l := xs]> (farrs w); iarrs := iarrs w;
                stdout := stdout w |}
  | None => Raise NameError
  end.

Definition new_int (xs : list Z) : M iloc := fun w =>
  Ret (length (iarrs w))
      {| farrs := farrs w; iarrs := iarrs w ++ [xs]; stdout := stdout w |}.

Definition get_int (l : iloc) : M (list Z) := fun w =>
  match iarrs w !! l with
  | Some xs => Ret xs w
  | None => Raise NameError
  end.

(** [x.copy()] *)
Definition copy_float (l : floc) : M floc := xs ← get_float l; new_float xs.
Definition copy_int (l : iloc) : M iloc := xs ← get_int l; new_int xs.

(** [print(x)] for an integer array. *)
Definition print (l : iloc) : M unit := fun w =>
  match iarrs w !! l with
  | Some xs =>
      Ret tt {| farrs := farrs w; iarrs := iarrs w; stdout := stdout w ++ [xs] |}
  | None => Raise NameError
  end.

(** ** Policy evaluation *)

(** The default [tol=1e-3] of [policy_evaluation] and [value_iteration]. *)
Definition default_tol : Q := (1 # 1000)%Q.

(** [prob_pi * (r_pi + gamma * V[s_next_pi])] *)
Definition pe_backup (prob_pi : list Q) (s_next_pi : list Z) (r_pi : list Q)
  (gamma : Q) (v : list Q) : result (list Q) :=
  vs ← np_take v s_next_pi;
  x ← np_binop Qplus r_pi (Qmult gamma <$> vs);
  np_binop Qmult prob_pi x.

(** [np.linalg.norm(V - V_new, ord=np.inf)] *)
Definition sup_distance (v v_new : list Q) : result Q :=
  d ← np_binop Qminus v v_new; norm_inf d.

(** The [while True] loop of [policy_evaluation]; it leaves with [V_new]. *)
Fixpoint pe_loop (fuel : nat) (prob_pi : list Q) (s_next_pi : list Z)
  (r_pi : list Q) (gamma tol : Q) (V : floc) : M floc :=
  match fuel with
  | O => looping
  | S fuel' =>
      v ← get_float V;
      x ← lift (pe_backup prob_pi s_next_pi r_pi gamma v);
      V_new ← new_float x;
      v_new ← get_float V_new;
      d ← lift (sup_distance v v_new);
      if Qltb d tol then mret V_new
      else
        V ← copy_float V_new;
        pe_loop fuel' prob_pi s_next_pi r_pi gamma tol V
  end.

Definition policy_evaluation (fuel : nat) (P : model) (nS nA : nat)
  (policy : iloc) (gamma tol : Q) : M floc :=
  value_function ← new_float (np_zeros nS);
  T ← lift (p_to_tensor P nS nA);
  let V := value_function in
  V_new ← copy_float V;
  pol ← get_int policy;
  take_indices ← lift (np_binop Z.add
                    (Z.mul (Z.of_nat nA) <$> np_arange nS) pol);
  prob_pi ← lift (np_take (concat (prob T)) take_indices);
  s_next_pi ← lift (np_take (concat (s_next T)) take_indices);
  r_pi ← lift (np_take (concat (r T)) take_indices);
  V_new ← pe_loop fuel prob_pi s_next_pi r_pi gamma tol V;
  let value_function := V_new in
  mret value_function.

(** ** Policy improvement *)

(** [prob * (r + gamma * V[s_next])], of shape [(nS, nA)]. *)
Definition q_values (T : tensors) (gamma : Q) (v : list Q)
  : result (list (list Q)) :=
  vs ← map_result (np_take v) (s_next T);
  Ok (np_binop2 Qmult (prob T)
        (np_binop2 Qplus (r T) (np_map2 (Qmult gamma) vs))).

Definition policy_improvement (P : model) (nS nA : nat)
  (value_from_policy : floc) (policy : iloc) (gamma : Q) : M iloc :=
  new_policy ← new_int (np_zeros_int nS);
  T ← lift (p_to_tensor P nS nA);
  v ← get_float value_from_policy;
  V_pi ← lift (q_values T gamma v);
  best ← lift (np_argmax_axis1 nA V_pi);
  new_policy ← new_int best;
  _ ← print new_policy;
  mret new_policy.

(** ** Policy iteration *)

(** The [while True] loop of [policy_iteration]; [budget] is the budget of
    each evaluation inside it.  It leaves with the binding of [policy]. *)
Fixpoint pi_loop (fuel budget : nat) (P : model) (nS nA : nat) (gamma : Q)
  (V : floc) (policy : iloc) : M iloc :=
  match fuel with
  | O => looping
  | S fuel' =>
      policy_new ← policy_improvement P nS nA V policy gamma;
      V_new ← policy_evaluation budget P nS nA policy_new gamma default_tol;
      p ← get_int policy;
      p_new ← get_int policy_new;
      if np_array_equal p p_new then mret policy
      else
        V ← copy_float V_new;
        policy ← copy_int policy_new;
        pi_loop fuel' budget P nS nA gamma V policy
  end.

Definition policy_iteration (fuel : nat) (P : model) (nS nA : nat)
  (gamma tol : Q) : M (floc * iloc) :=
  value_function ← new_float (np_zeros nS);
  policy ← new_int (np_zeros_int nS);
  let V := value_function in
  V ← policy_evaluation fuel P nS nA policy gamma default_tol;
  policy ← pi_loop fuel fuel P nS nA gamma V policy;
  mret (value_function, policy).

(** ** Value iteration *)

(** One pass of the loop body up to the test: [V_new] is allocated as
    zeros and [np.maximum(V_new, np.max(Q, axis=1), out=V_new)] writes
    into it. *)
Definition vi_sweep (T : tensors) (nS nA : nat) (gamma : Q) (V : floc)
  : M floc :=
  V_new ← new_float (np_zeros nS);
  v ← get_float V;
  Qsa ← lift (q_values T gamma v);
  best ← lift (np_max_axis1 nA Qsa);
  v_new ← get_float V_new;
  x ← lift (np_binop_out Qmaximum v_new v_new best);
  _ ← set_float V_new x;
  mret V_new.

(** The [while True] loop of [value_iteration]; it leaves with [V_new]. *)
Fixpoint vi_loop (fuel : nat) (T : tensors) (nS nA : nat) (gamma tol : Q)
  (V : floc) : M floc :=
  match fuel with
  | O => looping
  | S fuel' =>
      V_new ← vi_sweep T nS nA gamma V;
      v ← get_float V;
      v_new ← get_float V_new;
      d ← lift (sup_distance v v_new);
      if Qltb d tol then mret V_new
      else
        V ← copy_float V_new;
        vi_loop fuel' T nS nA gamma tol V
  end.

Definition value_iteration (fuel : nat) (P : model) (nS nA : nat)
  (gamma tol : Q) : M (floc * iloc) :=
  value_function ← new_float (np_zeros nS);
  policy ← new_int (np_zeros_int nS);
  T ← lift (p_to_tensor P nS nA);
  let V := value_function in
  V_new ← vi_loop fuel T nS nA gamma tol V;
  policy ← policy_improvement P nS nA V_new policy gamma;
  mret (value_function, policy).

(** ** Store-free forms of the routines

    What each routine computes from the contents of its array arguments,
    without the store; the run lemmas below relate them to the routines. *)

(** The array of shape [(nS, nA)] with entry [g s a] at [[s][a]]. *)
Definition dense {A} (nS nA : nat) (g : nat -> nat -> A) : list (list A) :=
  (fun s => g s <$> seq 0 nA) <$> seq 0 nS.

Definition no_transition : transition :=
  {| probability := 0; nextstate := 0; reward := 0; terminal := false |}.

(** The outcome the adapter reads for [(s, a)]. *)
Definition first_of (P : model) (s a : nat) : transition :=
  match first_outcome P s a with
  | Ok t => t
  | Err _ => no_transition
  end.

(** Row [s] of the tensor of the adapter, its first [n] entries filled. *)
Definition dense_row (P : model) (s n : nat) : list (list Q) :=
  (fun a => transition_row (first_of P s a)) <$> seq 0 n.

(** A loop [while True: x = step(v); if norm(v - x) < tol: break; v = x]
    on values: [Some x] when it leaves with [x] within the budget. *)
Fixpoint fixpoint_loop (fuel : nat) (step : list Q -> result (list Q))
  (tol : Q) (v : list Q) : result (option (list Q)) :=
  match fuel with
  | O => Ok None
  | S fuel' =>
      x ← step v;
      d ← sup_distance v x;
      if Qltb d tol then Ok (Some x) else fixpoint_loop fuel' step tol x
  end.

(** The arrays [prob_pi], [s_next_pi] and [r_pi] of [policy_evaluation]. *)
Definition policy_columns (T : tensors) (nS nA : nat) (pol : list Z)
  : result (list Q * list Z * list Q) :=
  take_indices ← np_binop Z.add (Z.mul (Z.of_nat nA) <$> np_arange nS) pol;
  prob_pi ← np_take (concat (prob T)) take_indices;
  s_next_pi ← np_take (concat (s_next T)) take_indices;
  r_pi ← np_take (concat (r T)) take_indices;
  Ok (prob_pi, s_next_pi, r_pi).

(** What [policy_evaluation] returns for a policy with contents [pol]. *)
Definition evaluation_values (fuel : nat) (P : model) (nS nA : nat)
  (pol : list Z) (gamma tol : Q) : result (option (list Q)) :=
  T ← p_to_tensor P nS nA;
  c ← policy_columns T nS nA pol;
  fixpoint_loop fuel (pe_backup c.1.1 c.1.2 c.2 gamma) tol (np_zeros nS).

(** What [policy_improvement] returns for a value function with contents [v]. *)
Definition greedy (P : model) (nS nA : nat) (gamma : Q) (v : list Q)
  : result (list Z) :=
  T ← p_to_tensor P nS nA;
  V_pi ← q_values T gamma v;
  np_argmax_axis1 nA V_pi.

(** The array a sweep of [value_iteration] leaves in [V_new]. *)
Definition vi_step (T : tensors) (nS nA : nat) (gamma : Q) (v : list Q)
  : result (list Q) :=
  Qsa ← q_values T gamma v;
  best ← np_max_axis1 nA Qsa;
  np_binop_out Qmaximum (np_zeros nS) (np_zeros nS) best.

(** ** Predicates on runs *)

(** A run that returns, with a value and a store that satisfy [post]. *)
Definition returns {A} (x : run A) (post : A -> world -> Prop) : Prop :=
  match x with
  | Ret a w => post a w
  | _ => False
  end.

(** A loop that is still running after any number of iterations. *)
Definition never_leaves {A} (f : nat -> run A) : Prop :=
  forall fuel, f fuel = Looping.

(** Once a run has left its loops, a larger budget gives the same run. *)
Definition budget_free {A} (f : nat -> M A) : Prop :=
  forall n m w, n <= m -> f n w <> Looping -> f m w = f n w.

(** The exceptions of the interpreter and of numpy. *)
Definition builtin (e : exn) : Prop :=
  e = KeyError \/ e = IndexError \/ e = ValueError \/ e = NameError.

(** A computation that raises nothing else. *)
Definition result_builtin {A} (x : result A) : Prop :=
  forall e, x = Err e -> builtin e.

Definition raises_builtin {A} (m : M A) : Prop :=
  forall w e, m w = Raise e -> builtin e.

(** Every array and every printed line of [w] is still there in [w'], at
    the same place and with the same contents. *)
Definition grows (w w' : world) : Prop :=
  farrs w `prefix_of` farrs w' /\
  iarrs w `prefix_of` iarrs w' /\
  stdout w `prefix_of` stdout w'.

(** A routine that leaves the arrays of its caller alone. *)
Definition extends {A} (m : M A) : Prop :=
  forall w a w', m w = Ret a w' -> grows w w'.

(** * What the specification asks

    The definitions of this part follow the words of the specification and
    of the docstrings; the properties compare the routines with them. *)

(** ** Of the adapter *)

(** [P[s][a]] when both keys are there. *)
Definition outcomes (P : model) (s a : nat) : option (list transition) :=
  Ps ← P !! s; Ps !! a.

(** [xs[s][a]] in an array of shape [(nS, nA)]. *)
Definition entry {A} (xs : list (list A)) (s a : nat) : option A :=
  row ← xs !! s; row !! a.




(** ** Of policy evaluation *)

(** A model with exactly one outcome for each of the [nS * nA] pairs, a
    probability in [0, 1] and a next state among the [nS] states. *)
Definition single_outcome (P : model) (nS nA : nat) : Prop :=
  forall s a, s < nS -> a < nA ->
    exists t, outcomes P s a = Some [t] /\
              (0 <= probability t <= 1)%Q /\
              (0 <= nextstate t < Z.of_nat nS)%Z.

(** The outcome of (s, a): its probability, reward and next state are the
    [prob(s, a)], [reward(s, a)] and [next_state(s, a)] of the specification. *)
Definition the_outcome (P : model) (s a : nat) : transition :=
  match outcomes P s a with
  | Some [t] => t
  | _ => no_transition
  end.

(** An array of [nS] actions, each in [0, nA). *)
Definition is_policy (nS nA : nat) (pol : list Z) : Prop :=
  length pol = nS /\ Forall (fun a => (0 <= a < Z.of_nat nA)%Z) pol.

(** [policy(s)] and [V(s)]. *)
Definition action (pol : list Z) (s : nat) : nat := Z.to_nat (nth s pol 0%Z).
Definition value_at (V : list Q) (s : Z) : Q := nth (Z.to_nat s) V 0%Q.

(** [V_(k+1)(s) = prob(s, policy(s)) *
                  (reward(s, policy(s)) + gamma * V_k(next_state(s, policy(s))))] *)
Definition expectation_backup (P : model) (nS : nat) (pol : list Z) (gamma : Q)
  (V : list Q) : list Q :=
  (fun s => let t := the_outcome P s (action pol s) in
            (probability t * (reward t + gamma * value_at V (nextstate t)))%Q)
    <$> seq 0 nS.

(** [V_0 = 0] and [V_(k+1)] from [V_k]. *)
Fixpoint evaluation_iterate (P : model) (nS : nat) (pol : list Z) (gamma : Q)
  (k : nat) : list Q :=
  match k with
  | O => np_zeros nS
  | S k' => expectation_backup P nS pol gamma (evaluation_iterate P nS pol gamma k')
  end.




(** ** Of value iteration *)

(** [V_0 = v], [V_(k+1) = step V_k]: the iterates of a sweep, without the
    stopping rule. *)
Fixpoint iterates (step : list Q -> result (list Q)) (k : nat) (v : list Q)
  : result (list Q) :=
  match k with
  | O => Ok v
  | S k' => x ← iterates step k' v; step x
  end.

(** The Bellman optimality backup,
    [V_(k+1)(s) = max_a prob(s,a) * (reward(s,a) + gamma * V_k(next_state(s,a)))],
    on the dense arrays. *)
Definition optimality_backup (T : tensors) (nA : nat) (gamma : Q) (v : list Q)
  : result (list Q) :=
  Qsa ← q_values T gamma v;
  np_max_axis1 nA Qsa.

(** ** Of the greedy choice *)

(** [a] attains the maximum of [row], and no action below [a] does. *)
Definition lowest_maximizer (row : list Q) (a : nat) : Prop :=
  exists qa, row !! a = Some qa /\
    (forall a' q', row !! a' = Some q' -> (q' <= qa)%Q) /\
    (forall a' q', row !! a' = Some q' -> (q' == qa)%Q -> a <= a').

(** [best] gives, for every state, the lowest maximizer of its row of [Qsa]. *)
Definition lowest_maximizers (Qsa : list (list Q)) (best : list Z) : Prop :=
  length best = length Qsa /\
  forall s row, Qsa !! s = Some row ->
    exists a, best !! s = Some (Z.of_nat a) /\ lowest_maximizer row a.

(** ** Of policy iteration

    "tol: float -- tol parameter used in policy_evaluation()": the routine
    [policy_iteration] with [tol] handed to every evaluation, as its
    docstring and the specification have it. *)

Fixpoint pi_loop_with_tol (fuel budget : nat) (P : model) (nS nA : nat)
  (gamma tol : Q) (V : floc) (policy : iloc) : M iloc :=
  match fuel with
  | O => looping
  | S fuel' =>
      policy_new ← policy_improvement P nS nA V policy gamma;
      V_new ← policy_evaluation budget P nS nA policy_new gamma tol;
      p ← get_int policy;
      p_new ← get_int policy_new;
      if np_array_equal p p_new then mret policy
      else
        V ← copy_float V_new;
        policy ← copy_int policy_new;
        pi_loop_with_tol fuel' budget P nS nA gamma tol V policy
  end.

Definition policy_iteration_with_tol (fuel : nat) (P : model) (nS nA : nat)
  (gamma tol : Q) : M (floc * iloc) :=
  value_function ← new_float (np_zeros nS);
  policy ← new_int (np_zeros_int nS);
  let V := value_function in
  V ← policy_evaluation fuel P nS nA policy gamma tol;
  policy ← pi_loop_with_tol fuel fuel P nS nA gamma tol V policy;
  mret (value_function, policy).

(** * Stores and models used as examples *)

Definition empty_world : world := {| farrs := []; iarrs := []; stdout := [] |}.

(** A store that holds one integer array, at location 0. *)
Definition world_with_policy (pol : list Z) : world :=
  {| farrs := []; iarrs := [pol]; stdout := [] |}.

(** A store with the value function [v] at float location 0 and the prior
    policy [pol] at integer location 0. *)
Definition world_with (v : list Q) (pol : list Z) : world :=
  {| farrs := [v]; iarrs := [pol]; stdout := [] |}.

(** The outcome [(p, n, rw, False)]. *)
Definition outcome (p : Q) (n : Z) (rw : Q) : transition :=
  {| probability := p; nextstate := n; reward := rw; terminal := false |}.

(** One state, one action that stays there with reward [rw]. *)
Definition self_loop (rw : Q) : model :=
  {[ 0%nat := {[ 0%nat := [outcome 1 0 rw] ]} ]}.

(** One state and two actions, both staying there with reward 1. *)
Definition tied : model :=
  {[ 0%nat := {[ 0%nat := [outcome 1 0 1]; 1%nat := [outcome 1 0 1] ]} ]}.

(** Two states, two actions, every move certain.  In state 0, action 0
    stays with reward 1 and action 1 moves to state 1 for nothing; in
    state 1, action 0 stays with reward 5/2 and action 1 stays for nothing. *)
Definition two_state : model :=
  {[ 0%nat := {[ 0%nat := [outcome 1 0 1]; 1%nat := [outcome 1 1 0] ]};
     1%nat := {[ 0%nat := [outcome 1 1 (5 # 2)]; 1%nat := [outcome 1 1 0] ]} ]}.

(** Two states and one action; the pair (0, 0) has two outcomes of
    probability 1/2 each, with rewards 1 and 3. *)
Definition two_outcomes : model :=
  {[ 0%nat := {[ 0%nat := [outcome (1 # 2) 0 1; outcome (1 # 2) 1 3] ]};
     1%nat := {[ 0%nat := [outcome 1 1 0] ]} ]}.

(** The same model with the second outcome of (0, 0) left out. *)
Definition first_outcomes_only : model :=
  {[ 0%nat := {[ 0%nat := [outcome (1 # 2) 0 1] ]};
     1%nat := {[ 0%nat := [outcome 1 1 0] ]} ]}.

(** * Further definitions

    What the later parts of the development use beyond the above. *)

(** The pairs (s, a) in the order in which the loops of the adapter visit
    them: state by state, and action by action within a state. *)
Definition row_major (nS nA : nat) : list (nat * nat) :=
  s ← seq 0 nS; (fun a => (s, a)) <$> seq 0 nA.

(** An array of shape [(nS, nA)]. *)
Definition has_shape {A} (nS nA : nat) (xs : list (list A)) : Prop :=
  length xs = nS /\ Forall (fun row => length row = nA) xs.

(** The test [norm(v - x) < tol] of the loops, passed or failed. *)
Definition test_passes (tol : Q) (v x : list Q) : Prop :=
  exists d, sup_distance v x = Ok d /\ Qltb d tol = true.

Definition test_fails (tol : Q) (v x : list Q) : Prop :=
  exists d, sup_distance v x = Ok d /\ Qltb d tol = false.

(** The loop on [step] from [v0] leaves after sweep [k + 1], with [x]:
    [x] is the iterate [k + 1], the test passes on the iterates [k] and
    [k + 1], and it has failed on every earlier pair. *)
Definition leaves_at (step : list Q -> result (list Q)) (tol : Q)
  (v0 : list Q) (k : nat) (x : list Q) : Prop :=
  exists v,
    iterates step k v0 = Ok v /\ step v = Ok x /\ test_passes tol v x /\
    forall j, j < k ->
      exists vj xj, iterates step j v0 = Ok vj /\ step vj = Ok xj /\
                    test_fails tol vj xj.

(** A routine that prints nothing. *)
Definition silent {A} (m : M A) : Prop :=
  forall w a w', m w = Ret a w' -> stdout w' = stdout w.

(** Every outcome the adapter reads has a probability and a reward that
    are not negative. *)
Definition nonnegative (P : model) (nS nA : nat) : Prop :=
  forall s a t rest, s < nS -> a < nA ->
    outcomes P s a = Some (t :: rest) ->
    (0 <= probability t)%Q /\ (0 <= reward t)%Q.





(** Two models whose pairs (s, a) in range have the same first outcome up
    to the [terminal] flag, or fail to have one in the same way; the
    outcomes after the first are not compared. *)
Definition same_first_outcomes (P P' : model) (nS nA : nat) : Prop :=
  forall s a, s < nS -> a < nA ->
    match first_outcome P s a, first_outcome P' s a with
    | Ok t, Ok t' =>
        probability t = probability t' /\ nextstate t = nextstate t' /\
        reward t = reward t'
    | Err e, Err e' => e = e'
    | _, _ => False
    end.

(** * The rollout drivers

    [render_single] and [run_n] play a policy on an environment.  The
    environment is a parameter: a hidden state [E] with the two methods
    the drivers call, each of which may raise.  What a driver does is
    recorded as a log of events, in order: its calls of the environment,
    with what [step] returned, its calls of [render] and [sleep], and the
    lines it prints. *)

Record environment (E : Type) : Type := {
  env_reset : E -> option (Z * E);
  env_step : E -> Z -> option (Z * Q * bool * E)
}.
Arguments env_reset {E}.
Arguments env_step {E}.

Inductive event : Type :=
  | Reset (ob : Z)
  | Step (a : Z) (ob : Z) (rew : Q) (done : bool)
  | Render
  | Sleep
  | PrintNotTerminal (max_steps : nat)
  | PrintEpisodeReward (episode_reward : Q)
  | PrintIterations (iters : nat)
  | PrintAverage (total_reward : Q) (iters : nat).

Inductive driver_exn : Type :=
  | Numpy (e : exn)
  | EnvironmentRaised
  | UnboundLocalError
  | ZeroDivisionError.

Record session (E : Type) : Type := { hidden : E; log : list event }.
Arguments hidden {E}.
Arguments log {E}.

Inductive ended (E A : Type) : Type :=
  | Returned (a : A) (s : session E)
  | Raised (e : driver_exn) (s : session E).
Arguments Returned {E A}.
Arguments Raised {E A}.

Definition Drv (E A : Type) : Type := session E -> ended E A.

#[export] Instance Drv_ret {E} : MRet (Drv E) := fun A a s => Returned a s.
#[export] Instance Drv_bind {E} : MBind (Drv E) := fun A B k m s =>
  match m s with
  | Returned a s' => k a s'
  | Raised e s' => Raised e s'
  end.

Definition raise {E A} (e : driver_exn) : Drv E A := fun s => Raised e s.

Definition emit {E} (ev : event) : Drv E unit := fun s =>
  Returned tt {| hidden := hidden s; log := log s ++ [ev] |}.

(** [policy[ob]] *)
Definition index_policy {E} (policy : list Z) (ob : Z) : Drv E Z :=
  match np_index policy ob with
  | Ok a => mret a
  | Err e => raise (Numpy e)
  end.

(** [env.reset()] *)
Definition reset {E} (env : environment E) : Drv E Z := fun s =>
  match env_reset env (hidden s) with
  | Some (ob, h) => Returned ob {| hidden := h; log := log s ++ [Reset ob] |}
  | None => Raised EnvironmentRaised s
  end.

(** [env.step(a)] *)
Definition step {E} (env : environment E) (a : Z) : Drv E (Z * Q * bool) :=
  fun s =>
    match env_step env (hidden s) a with
    | Some (ob, rew, done, h) =>
        Returned (ob, rew, done)
          {| hidden := h; log := log s ++ [Step a ob rew done] |}
    | None => Raised EnvironmentRaised s
    end.

(** The [for t in range(max_steps)] loop of [render_single], [n] passes
    left; [done] is [None] as long as the name is not bound. *)
Fixpoint render_loop {E} (env : environment E) (policy : list Z) (n : nat)
  (ob : Z) (episode_reward : Q) (done : option bool)
  : Drv E (Q * option bool) :=
  match n with
  | O => mret (episode_reward, done)
  | S n' =>
      _ ← emit Render;
      _ ← emit Sleep;
      a ← index_policy policy ob;
      x ← step env a;
      let episode_reward := (episode_reward + x.1.2)%Q in
      if (x.2 : bool) then mret (episode_reward, Some true)
      else render_loop env policy n' x.1.1 episode_reward (Some false)
  end.

Definition render_single {E} (env : environment E) (policy : list Z)
  (max_steps : nat) : Drv E unit :=
  let episode_reward := 0%Q in
  ob ← reset env;
  x ← render_loop env policy max_steps ob episode_reward None;
  _ ← emit Render;
  match x.2 with
  | None => raise UnboundLocalError
  | Some false => emit (PrintNotTerminal max_steps)
  | Some true => emit (PrintEpisodeReward x.1)
  end.

(** The inner loop of [run_n], [n] passes left. *)
Fixpoint episode_loop {E} (env : environment E) (policy : list Z) (n : nat)
  (ob : Z) (episode_reward : Q) : Drv E Q :=
  match n with
  | O => mret episode_reward
  | S n' =>
      a ← index_policy policy ob;
      x ← step env a;
      let episode_reward := (episode_reward + x.1.2)%Q in
      if (x.2 : bool) then mret episode_reward
      else episode_loop env policy n' x.1.1 episode_reward
  end.

(** The outer loop of [run_n], [n] passes left. *)
Fixpoint episodes {E} (env : environment E) (policy : list Z)
  (max_steps n : nat) (total_reward : Q) : Drv E Q :=
  match n with
  | O => mret total_reward
  | S n' =>
      let episode_reward := 0%Q in
      ob ← reset env;
      episode_reward ← episode_loop env policy max_steps ob episode_reward;
      episodes env policy max_steps n' (total_reward + episode_reward)%Q
  end.

Definition run_n {E} (env : environment E) (policy : list Z)
  (max_steps iters : nat) : Drv E unit :=
  total_reward ← episodes env policy max_steps iters 0%Q;
  _ ← emit (PrintIterations iters);
  if Nat.eqb iters 0 then raise ZeroDivisionError
  else emit (PrintAverage total_reward iters).

(** What the log says. *)
Definition is_step (ev : event) : bool :=
  match ev with Step _ _ _ _ => true | _ => false end.
Definition is_reset (ev : event) : bool :=
  match ev with Reset _ => true | _ => false end.
Definition is_print (ev : event) : bool :=
  match ev with
  | PrintNotTerminal _ | PrintEpisodeReward _ | PrintIterations _
  | PrintAverage _ _ => true
  | _ => false
  end.


Fixpoint count (p : event -> bool) (evs : list event) : nat :=
  match evs with
  | [] => 0
  | ev :: rest => (if p ev then 1 else 0) + count p rest
  end.

(** The rewards of the steps of a log, added to [acc] in the order of the
    log, as [episode_reward += rew] does. *)
Definition rewards_from (acc : Q) (evs : list event) : Q :=
  fold_left (fun acc ev => match ev with
                           | Step _ _ rew _ => (acc + rew)%Q
                           | _ => acc
                           end) evs acc.

Definition rewards (evs : list event) : Q := rewards_from 0 evs.

(** An environment for the examples: the hidden state counts the steps
    made since the last reset; a step pays 1, shows the action as the next
    observation, and the third step of an episode ends it. *)
Definition three_steps : environment nat :=
  {| env_reset := fun _ => Some (0%Z, 0);
     env_step := fun h a => Some (a, 1%Q, Nat.eqb h 2, S h) |}.

Definition fresh : session nat := {| hidden := 0; log := [] |}.

(** The session a driver ends in, returned or raised. *)
Definition final {E A} (x : ended E A) : session E :=
  match x with
  | Returned _ s => s
  | Raised _ s => s
  end.

(** A log plays [policy]: every step takes the action [policy[ob]] for the
    observation [ob] that the reset or the step before it returned, and no
    step follows a step that ended the episode without a reset between
    them.  [last] is the observation the log starts from, if there is one. *)
Fixpoint plays (policy : list Z) (last : option Z) (evs : list event) : Prop :=
  match evs with
  | [] => True
  | Reset ob :: rest => plays policy (Some ob) rest
  | Step a ob _ done :: rest =>
      (exists o, last = Some o /\ np_index policy o = Ok a) /\
      plays policy (if done then None else Some ob) rest
  | _ :: rest => plays policy last rest
  end.

(** * Properties *)

(** ** Running the monad *)

Lemma bind_run {A B} (m : M A) (k : A -> M B) (w : world) :
  (m ≫= k) w = match m w with
               | Ret a w' => k a w'
               | Raise e => Raise e
               | Looping => Looping
               end.
Proof. reflexivity. Qed.

Lemma bind_Ret_inv {A B} (m : M A) (k : A -> M B) w b w2 :
  (m ≫= k) w = Ret b w2 -> exists a w1, m w = Ret a w1 /\ k a w1 = Ret b w2.
Proof. rewrite bind_run. destruct (m w) as [a w1| |]; try discriminate. eauto. Qed.

Lemma lift_Ret_inv {A} (x : result A) w a w' :
  lift x w = Ret a w' -> x = Ok a /\ w' = w.
Proof. destruct x; simpl; intros H; inversion H; auto. Qed.

Lemma result_bind_Ok_inv {A B} (x : result A) (k : A -> result B) b :
  x ≫= k = Ok b -> exists a, x = Ok a /\ k a = Ok b.
Proof. destruct x; simpl; [eauto | discriminate]. Qed.

(** ** Only the interpreter's exceptions are ever raised *)

Lemma builtin_not_spec_error e :
  builtin e ->
  e <> ModelShapeError /\ e <> InvalidConfiguration /\ e <> NonConvergence.
Proof. unfold builtin; intuition congruence. Qed.

Lemma result_builtin_Ok {A} (a : A) : result_builtin (Ok a).
Proof. intros e; discriminate. Qed.

Lemma result_builtin_Err {A} e : builtin e -> result_builtin (@Err A e).
Proof. intros He e' [= <-]; exact He. Qed.

Lemma result_builtin_bind {A B} (x : result A) (k : A -> result B) :
  result_builtin x -> (forall a, result_builtin (k a)) -> result_builtin (x ≫= k).
Proof.
  intros Hx Hk e. destruct x as [a|e']; simpl.
  - apply Hk.
  - intros [= <-]. now apply Hx.
Qed.

Lemma from_option_builtin {A} e (o : option A) :
  builtin e -> result_builtin (from_option e o).
Proof. destruct o; simpl; auto using result_builtin_Ok, result_builtin_Err. Qed.

Lemma for_each_builtin {A S} (xs : list A) (body : S -> A -> result S) acc :
  (forall acc x, result_builtin (body acc x)) ->
  result_builtin (for_each xs body acc).
Proof.
  intros Hb. revert acc. induction xs as [|x xs IH]; intros acc; simpl.
  - apply result_builtin_Ok.
  - apply result_builtin_bind; auto.
Qed.

Lemma map_result_builtin {A B} (f : A -> result B) xs :
  (forall x, result_builtin (f x)) -> result_builtin (map_result f xs).
Proof.
  intros Hf. induction xs as [|x xs IH]; simpl.
  - apply result_builtin_Ok.
  - apply result_builtin_bind; [auto|]. intros y.
    apply result_builtin_bind; [auto|]. intros ys. apply result_builtin_Ok.
Qed.

Lemma np_index_builtin {A} (xs : list A) i : result_builtin (np_index xs i).
Proof.
  unfold np_index, builtin.
  repeat case_match; try apply from_option_builtin; unfold builtin; auto.
  apply result_builtin_Err. unfold builtin; auto.
Qed.

Lemma np_take_builtin {A} (xs : list A) idx : result_builtin (np_take xs idx).
Proof. apply map_result_builtin. intros; apply np_index_builtin. Qed.

Lemma np_binop_builtin {A B C} (f : A -> B -> C) xs ys :
  result_builtin (np_binop f xs ys).
Proof.
  unfold np_binop. repeat case_match;
    first [apply result_builtin_Ok | apply result_builtin_Err; unfold builtin; auto].
Qed.

Lemma np_binop_out_builtin {A B C D} (f : A -> B -> C) (out : list D) xs ys :
  result_builtin (np_binop_out f out xs ys).
Proof.
  unfold np_binop_out. apply result_builtin_bind; [apply np_binop_builtin|].
  intros x. case_match;
    [apply result_builtin_Ok | apply result_builtin_Err; unfold builtin; auto].
Qed.

Lemma np_max_builtin xs : result_builtin (np_max xs).
Proof.
  destruct xs; simpl;
    [apply result_builtin_Err; unfold builtin; auto | apply result_builtin_Ok].
Qed.

Lemma np_argmax_builtin xs : result_builtin (np_argmax xs).
Proof.
  destruct xs; simpl;
    [apply result_builtin_Err; unfold builtin; auto | apply result_builtin_Ok].
Qed.

Lemma first_outcome_builtin P s a : result_builtin (first_outcome P s a).
Proof.
  unfold first_outcome.
  apply result_builtin_bind; [apply from_option_builtin; unfold builtin; auto|].
  intros Ps. apply result_builtin_bind;
    [apply from_option_builtin; unfold builtin; auto|].
  intros Psa. apply from_option_builtin; unfold builtin; auto.
Qed.

Lemma p_to_tensor_builtin P nS nA : result_builtin (p_to_tensor P nS nA).
Proof.
  unfold p_to_tensor. apply result_builtin_bind.
  - apply for_each_builtin. intros T s. apply for_each_builtin. intros T' a.
    apply result_builtin_bind; [apply first_outcome_builtin|].
    intros t. apply result_builtin_Ok.
  - intros T. apply result_builtin_Ok.
Qed.

Lemma pe_backup_builtin pp sn rp gamma v :
  result_builtin (pe_backup pp sn rp gamma v).
Proof.
  unfold pe_backup. apply result_builtin_bind; [apply np_take_builtin|].
  intros vs. apply result_builtin_bind; intros; apply np_binop_builtin.
Qed.

Lemma sup_distance_builtin v v' : result_builtin (sup_distance v v').
Proof.
  unfold sup_distance. apply result_builtin_bind; [apply np_binop_builtin|].
  intros d. apply np_max_builtin.
Qed.

Lemma q_values_builtin T gamma v : result_builtin (q_values T gamma v).
Proof.
  unfold q_values. apply result_builtin_bind.
  - apply map_result_builtin. intros; apply np_take_builtin.
  - intros; apply result_builtin_Ok.
Qed.

Lemma np_max_axis1_builtin nA rows : result_builtin (np_max_axis1 nA rows).
Proof.
  unfold np_max_axis1. case_match.
  - apply result_builtin_Err; unfold builtin; auto.
  - apply map_result_builtin, np_max_builtin.
Qed.

Lemma np_argmax_axis1_builtin nA rows : result_builtin (np_argmax_axis1 nA rows).
Proof.
  unfold np_argmax_axis1. case_match.
  - apply result_builtin_Err; unfold builtin; auto.
  - apply map_result_builtin, np_argmax_builtin.
Qed.

Lemma raises_builtin_ret {A} (a : A) : raises_builtin (mret a).
Proof. intros w e; discriminate. Qed.

Lemma raises_builtin_bind {A B} (m : M A) (k : A -> M B) :
  raises_builtin m -> (forall a, raises_builtin (k a)) -> raises_builtin (m ≫= k).
Proof.
  intros Hm Hk w e. rewrite bind_run. destruct (m w) as [a w1|e1|] eqn:Em.
  - apply Hk.
  - intros [= <-]. eapply Hm; eauto.
  - discriminate.
Qed.

Lemma raises_builtin_lift {A} (x : result A) :
  result_builtin x -> raises_builtin (lift x).
Proof. intros Hx w e. destruct x; simpl; [discriminate|]. intros [= <-]; auto. Qed.

Lemma raises_builtin_looping {A} : raises_builtin (@looping A).
Proof. intros w e; discriminate. Qed.

Lemma raises_builtin_new_float xs : raises_builtin (new_float xs).
Proof. intros w e; discriminate. Qed.

Lemma raises_builtin_new_int xs : raises_builtin (new_int xs).
Proof. intros w e; discriminate. Qed.

Lemma raises_builtin_get_float l : raises_builtin (get_float l).
Proof.
  intros w e. unfold get_float. case_match; [discriminate|].
  intros [= <-]. unfold builtin; auto.
Qed.

Lemma raises_builtin_get_int l : raises_builtin (get_int l).
Proof.
  intros w e. unfold get_int. case_match; [discriminate|].
  intros [= <-]. unfold builtin; auto.
Qed.

Lemma raises_builtin_set_float l xs : raises_builtin (set_float l xs).
Proof.
  intros w e. unfold set_float. case_match; [discriminate|].
  intros [= <-]. unfold builtin; auto.
Qed.

Lemma raises_builtin_print l : raises_builtin (print l).
Proof.
  intros w e. unfold print. case_match; [discriminate|].
  intros [= <-]. unfold builtin; auto.
Qed.

Create HintDb builtin_db.
#[export] Hint Resolve raises_builtin_ret raises_builtin_looping
  raises_builtin_new_float raises_builtin_new_int raises_builtin_get_float
  raises_builtin_get_int raises_builtin_set_float raises_builtin_print
  p_to_tensor_builtin pe_backup_builtin sup_distance_builtin q_values_builtin
  np_max_axis1_builtin np_argmax_axis1_builtin np_binop_builtin
  np_binop_out_builtin np_take_builtin : builtin_db.

Ltac builtin_steps :=
  repeat first
    [ solve [auto with builtin_db]
    | apply raises_builtin_lift
    | apply raises_builtin_bind; [ | intros ? ] ].

Lemma raises_builtin_copy_float l : raises_builtin (copy_float l).
Proof. unfold copy_float. builtin_steps. Qed.

Lemma raises_builtin_copy_int l : raises_builtin (copy_int l).
Proof. unfold copy_int. builtin_steps. Qed.

#[export] Hint Resolve raises_builtin_copy_float raises_builtin_copy_int
  : builtin_db.

Lemma pe_loop_builtin fuel pp sn rp gamma tol V :
  raises_builtin (pe_loop fuel pp sn rp gamma tol V).
Proof.
  revert V. induction fuel as [|n IH]; intros V; cbn [pe_loop]; builtin_steps.
  case_match; builtin_steps.
Qed.

#[export] Hint Resolve pe_loop_builtin : builtin_db.

Lemma policy_evaluation_builtin fuel P nS nA policy gamma tol :
  raises_builtin (policy_evaluation fuel P nS nA policy gamma tol).
Proof. unfold policy_evaluation. builtin_steps. Qed.

Lemma policy_improvement_builtin P nS nA v policy gamma :
  raises_builtin (policy_improvement P nS nA v policy gamma).
Proof. unfold policy_improvement. builtin_steps. Qed.

#[export] Hint Resolve policy_evaluation_builtin policy_improvement_builtin
  : builtin_db.

Lemma pi_loop_builtin fuel budget P nS nA gamma V policy :
  raises_builtin (pi_loop fuel budget P nS nA gamma V policy).
Proof.
  revert V policy. induction fuel as [|n IH]; intros V policy; cbn [pi_loop];
    builtin_steps.
  case_match; builtin_steps.
Qed.

#[export] Hint Resolve pi_loop_builtin : builtin_db.

Lemma policy_iteration_builtin fuel P nS nA gamma tol :
  raises_builtin (policy_iteration fuel P nS nA gamma tol).
Proof. unfold policy_iteration. builtin_steps. Qed.

Lemma vi_sweep_builtin T nS nA gamma V : raises_builtin (vi_sweep T nS nA gamma V).
Proof. unfold vi_sweep. builtin_steps. Qed.

#[export] Hint Resolve vi_sweep_builtin : builtin_db.

Lemma vi_loop_builtin fuel T nS nA gamma tol V :
  raises_builtin (vi_loop fuel T nS nA gamma tol V).
Proof.
  revert V. induction fuel as [|n IH]; intros V; cbn [vi_loop]; builtin_steps.
  case_match; builtin_steps.
Qed.

#[export] Hint Resolve vi_loop_builtin : builtin_db.

Lemma value_iteration_builtin fuel P nS nA gamma tol :
  raises_builtin (value_iteration fuel P nS nA gamma tol).
Proof. unfold value_iteration. builtin_steps. Qed.

(** ** The store only grows *)

Lemma grows_refl w : grows w w.
Proof. repeat split; reflexivity. Qed.

Lemma grows_trans w1 w2 w3 : grows w1 w2 -> grows w2 w3 -> grows w1 w3.
Proof.
  intros (H1 & H2 & H3) (K1 & K2 & K3).
  repeat split; etransitivity; eauto.
Qed.

Lemma grows_float w w' l xs :
  grows w w' -> farrs w !! l = Some xs -> farrs w' !! l = Some xs.
Proof. intros (H & _) Hl. eapply prefix_lookup_Some; eauto. Qed.

Lemma grows_int w w' l xs :
  grows w w' -> iarrs w !! l = Some xs -> iarrs w' !! l = Some xs.
Proof. intros (_ & H & _) Hl. eapply prefix_lookup_Some; eauto. Qed.

Lemma extends_ret {A} (a : A) : extends (mret a).
Proof. intros w a' w' [= _ <-]. apply grows_refl. Qed.

Lemma extends_bind {A B} (m : M A) (k : A -> M B) :
  extends m -> (forall a, extends (k a)) -> extends (m ≫= k).
Proof.
  intros Hm Hk w b w2 H. apply bind_Ret_inv in H as (a & w1 & H1 & H2).
  eapply grows_trans; [eapply Hm | eapply Hk]; eauto.
Qed.

Lemma extends_lift {A} (x : result A) : extends (lift x).
Proof. intros w a w' H. apply lift_Ret_inv in H as [_ ->]. apply grows_refl. Qed.

Lemma extends_looping {A} : extends (@looping A).
Proof. intros w a w'; discriminate. Qed.

Lemma extends_new_float xs : extends (new_float xs).
Proof.
  intros w a w' [= _ <-]. repeat split; simpl; try reflexivity.
  now apply prefix_app_r.
Qed.

Lemma extends_new_int xs : extends (new_int xs).
Proof.
  intros w a w' [= _ <-]. repeat split; simpl; try reflexivity.
  now apply prefix_app_r.
Qed.

Lemma extends_get_float l : extends (get_float l).
Proof.
  intros w a w'. unfold get_float. case_match; [|discriminate].
  intros [= _ <-]. apply grows_refl.
Qed.

Lemma extends_get_int l : extends (get_int l).
Proof.
  intros w a w'. unfold get_int. case_match; [|discriminate].
  intros [= _ <-]. apply grows_refl.
Qed.

Lemma extends_print l : extends (print l).
Proof.
  intros w a w'. unfold print. case_match; [|discriminate].
  intros [= <- <-]. repeat split; simpl; try reflexivity.
  now apply prefix_app_r.
Qed.

Create HintDb extends_db.
#[export] Hint Resolve extends_ret extends_looping extends_lift
  extends_new_float extends_new_int extends_get_float extends_get_int
  extends_print : extends_db.

Ltac extends_steps :=
  repeat first
    [ solve [auto with extends_db]
    | apply extends_bind; [ | intros ? ] ].

Lemma extends_copy_float l : extends (copy_float l).
Proof. unfold copy_float. extends_steps. Qed.

Lemma extends_copy_int l : extends (copy_int l).
Proof. unfold copy_int. extends_steps. Qed.

#[export] Hint Resolve extends_copy_float extends_copy_int : extends_db.

Lemma pe_loop_extends fuel pp sn rp gamma tol V :
  extends (pe_loop fuel pp sn rp gamma tol V).
Proof.
  revert V. induction fuel as [|n IH]; intros V; cbn [pe_loop]; extends_steps.
  case_match; extends_steps.
Qed.

#[export] Hint Resolve pe_loop_extends : extends_db.

Lemma policy_evaluation_extends fuel P nS nA policy gamma tol :
  extends (policy_evaluation fuel P nS nA policy gamma tol).
Proof. unfold policy_evaluation. extends_steps. Qed.

Lemma policy_improvement_extends P nS nA v policy gamma :
  extends (policy_improvement P nS nA v policy gamma).
Proof. unfold policy_improvement. extends_steps. Qed.

#[export] Hint Resolve policy_evaluation_extends policy_improvement_extends
  : extends_db.

Lemma pi_loop_extends fuel budget P nS nA gamma V policy :
  extends (pi_loop fuel budget P nS nA gamma V policy).
Proof.
  revert V policy. induction fuel as [|n IH]; intros V policy; cbn [pi_loop];
    extends_steps.
  case_match; extends_steps.
Qed.

#[export] Hint Resolve pi_loop_extends : extends_db.

(** The write of [out=V_new] lands in the array allocated on the line
    before, so a sweep as a whole leaves every older array alone. *)
Lemma vi_sweep_inv T nS nA gamma V w l w' :
  vi_sweep T nS nA gamma V w = Ret l w' ->
  exists best x,
    np_binop_out Qmaximum (np_zeros nS) (np_zeros nS) best = Ok x /\
    l = length (farrs w) /\
    w' = {| farrs := farrs w ++ [x]; iarrs := iarrs w; stdout := stdout w |}.
Proof.
  unfold vi_sweep. intros H.
  apply bind_Ret_inv in H as (l0 & w1 & H0 & H). injection H0 as <- <-.
  apply bind_Ret_inv in H as (v & w2 & Hv & H).
  unfold get_float in Hv. destruct (farrs _ !! V); [|discriminate].
  injection Hv as <- <-.
  apply bind_Ret_inv in H as (Qsa & w3 & HQ & H).
  apply lift_Ret_inv in HQ as [HQ ->].
  apply bind_Ret_inv in H as (best & w4 & Hb & H).
  apply lift_Ret_inv in Hb as [Hb ->].
  apply bind_Ret_inv in H as (vn & w5 & Hvn & H).
  unfold get_float in Hvn. simpl in Hvn.
  rewrite lookup_app_r, Nat.sub_diag in Hvn by lia. simpl in Hvn.
  injection Hvn as <- <-.
  apply bind_Ret_inv in H as (x & w6 & Hx & H).
  apply lift_Ret_inv in Hx as [Hx ->].
  apply bind_Ret_inv in H as ([] & w7 & Hs & H).
  unfold set_float in Hs. simpl in Hs.
  rewrite lookup_app_r, Nat.sub_diag in Hs by lia. simpl in Hs.
  injection Hs as <-. injection H as <- <-.
  exists best, x. split; [exact Hx|]. split; [reflexivity|].
  f_equal. simpl. rewrite insert_app_r_alt, Nat.sub_diag by lia. reflexivity.
Qed.

Lemma vi_sweep_extends T nS nA gamma V : extends (vi_sweep T nS nA gamma V).
Proof.
  intros w l w' H. apply vi_sweep_inv in H as (best & x & _ & _ & ->).
  repeat split; simpl; try reflexivity. now apply prefix_app_r.
Qed.

#[export] Hint Resolve vi_sweep_extends : extends_db.

Lemma vi_loop_extends fuel T nS nA gamma tol V :
  extends (vi_loop fuel T nS nA gamma tol V).
Proof.
  revert V. induction fuel as [|n IH]; intros V; cbn [vi_loop]; extends_steps.
  case_match; extends_steps.
Qed.

#[export] Hint Resolve vi_loop_extends : extends_db.

(** ** The iteration budget is not a cap *)

Lemma budget_free_const {A} (m : M A) : budget_free (fun _ => m).
Proof. intros n k w _ _. reflexivity. Qed.

Lemma budget_free_bind {A B} (f : nat -> M A) (g : A -> nat -> M B) :
  budget_free f -> (forall a, budget_free (g a)) ->
  budget_free (fun n => f n ≫= fun a => g a n).
Proof.
  intros Hf Hg n m w Hnm H. rewrite !bind_run in *.
  assert (Hn : f n w <> Looping) by (intros E; rewrite E in H; congruence).
  rewrite (Hf n m w Hnm Hn).
  destruct (f n w) as [a w1|e|]; try reflexivity.
  now apply Hg.
Qed.

Lemma pe_loop_budget_free pp sn rp gamma tol V :
  budget_free (fun n => pe_loop n pp sn rp gamma tol V).
Proof.
  intros n. revert V. induction n as [|n IH]; intros V m w Hnm H.
  - exfalso. apply H. reflexivity.
  - destruct m as [|m]; [lia|]. cbn [pe_loop] in *.
    rewrite !bind_run in *. destruct (get_float V w) as [v w1|e|]; try reflexivity.
    rewrite !bind_run in *. destruct (lift _ w1) as [x w2|e|]; try reflexivity.
    rewrite !bind_run in *. destruct (new_float x w2) as [l w3|e|]; try reflexivity.
    rewrite !bind_run in *. destruct (get_float l w3) as [vn w4|e|]; try reflexivity.
    rewrite !bind_run in *. destruct (lift _ w4) as [d w5|e|]; try reflexivity.
    destruct (Qltb d tol); [reflexivity|].
    rewrite !bind_run in *. destruct (copy_float l w5) as [c w6|e|]; try reflexivity.
    apply IH; [lia|exact H].
Qed.

Lemma policy_evaluation_budget_free P nS nA policy gamma tol :
  budget_free (fun n => policy_evaluation n P nS nA policy gamma tol).
Proof.
  unfold policy_evaluation.
  repeat (apply (budget_free_bind (fun _ => _)); [apply budget_free_const|intros ?]).
  apply (budget_free_bind (fun n => pe_loop n _ _ _ _ _ _) (fun a _ => mret a)).
  - apply pe_loop_budget_free.
  - intros; apply budget_free_const.
Qed.

Lemma vi_loop_budget_free T nS nA gamma tol V :
  budget_free (fun n => vi_loop n T nS nA gamma tol V).
Proof.
  intros n. revert V. induction n as [|n IH]; intros V m w Hnm H.
  - exfalso. apply H. reflexivity.
  - destruct m as [|m]; [lia|]. cbn [vi_loop] in *.
    rewrite !bind_run in *. destruct (vi_sweep _ _ _ _ V w) as [l w1|e|]; try reflexivity.
    rewrite !bind_run in *. destruct (get_float V w1) as [v w2|e|]; try reflexivity.
    rewrite !bind_run in *. destruct (get_float l w2) as [vn w3|e|]; try reflexivity.
    rewrite !bind_run in *. destruct (lift _ w3) as [d w4|e|]; try reflexivity.
    destruct (Qltb d tol); [reflexivity|].
    rewrite !bind_run in *. destruct (copy_float l w4) as [c w5|e|]; try reflexivity.
    apply IH; [lia|exact H].
Qed.

Lemma value_iteration_budget_free P nS nA gamma tol :
  budget_free (fun n => value_iteration n P nS nA gamma tol).
Proof.
  unfold value_iteration.
  repeat (apply (budget_free_bind (fun _ => _)); [apply budget_free_const|intros ?]).
  apply (budget_free_bind (fun n => vi_loop n _ _ _ _ _ _)).
  - apply vi_loop_budget_free.
  - intros; apply budget_free_const.
Qed.

(** In [pi_loop] the outer count [n] and the budget [b] of the evaluations
    inside may both increase. *)
Lemma pi_loop_budget_free P nS nA gamma n :
  forall V policy b n' b' w,
    n <= n' -> b <= b' ->
    pi_loop n b P nS nA gamma V policy w <> Looping ->
    pi_loop n' b' P nS nA gamma V policy w = pi_loop n b P nS nA gamma V policy w.
Proof.
  induction n as [|n IH]; intros V policy b n' b' w Hn Hb H.
  - exfalso. apply H. reflexivity.
  - destruct n' as [|n']; [lia|]. cbn [pi_loop] in *.
    rewrite !bind_run in *.
    destruct (policy_improvement _ _ _ V policy gamma w) as [pn w1|e|];
      try reflexivity.
    rewrite !bind_run in *.
    assert (He : policy_evaluation b P nS nA pn gamma default_tol w1 <> Looping)
      by (intros E; rewrite E in H; congruence).
    rewrite (policy_evaluation_budget_free P nS nA pn gamma default_tol b b' w1 Hb He).
    destruct (policy_evaluation b _ _ _ pn _ _ w1) as [vn w2|e|]; try reflexivity.
    rewrite !bind_run in *. destruct (get_int policy w2) as [p w3|e|]; try reflexivity.
    rewrite !bind_run in *. destruct (get_int pn w3) as [p' w4|e|]; try reflexivity.
    destruct (np_array_equal p p'); [reflexivity|].
    rewrite !bind_run in *. destruct (copy_float vn w4) as [c w5|e|]; try reflexivity.
    rewrite !bind_run in *. destruct (copy_int pn w5) as [c' w6|e|]; try reflexivity.
    apply IH; [lia|lia|exact H].
Qed.

Lemma policy_iteration_budget_free P nS nA gamma tol :
  budget_free (fun n => policy_iteration n P nS nA gamma tol).
Proof.
  intros n m w Hnm H. unfold policy_iteration in *.
  rewrite !bind_run in *. destruct (new_float _ w) as [vf w1|e|]; try reflexivity.
  rewrite !bind_run in *. destruct (new_int _ w1) as [pol w2|e|]; try reflexivity.
  rewrite !bind_run in *.
  assert (He : policy_evaluation n P nS nA pol gamma default_tol w2 <> Looping)
    by (intros E; rewrite E in H; congruence).
  rewrite (policy_evaluation_budget_free P nS nA pol gamma default_tol n m w2 Hnm He).
  destruct (policy_evaluation n _ _ _ pol _ _ w2) as [V w3|e|]; try reflexivity.
  rewrite !bind_run in *.
  assert (Hp : pi_loop n n P nS nA gamma V pol w3 <> Looping)
    by (intros E; rewrite E in H; congruence).
  rewrite (pi_loop_budget_free P nS nA gamma n V pol n m m w3 Hnm Hnm Hp).
  reflexivity.
Qed.

(** ** The adapter on a model with an outcome for every pair *)

Lemma tensor_set_middle (pre post : list (list (list Q))) Ts a row :
  tensor_set (pre ++ Ts :: post) (length pre) a row
  = pre ++ <[a := row]> Ts :: post.
Proof.
  unfold tensor_set. rewrite list_lookup_middle by reflexivity.
  rewrite insert_app_r_alt, Nat.sub_diag by lia. reflexivity.
Qed.

Lemma dense_row_S P s n :
  dense_row P s (S n) = dense_row P s n ++ [transition_row (first_of P s n)].
Proof. unfold dense_row. rewrite seq_S, fmap_app. reflexivity. Qed.

Lemma insert_next {A} (l : list A) (z x : A) n :
  <[length l := x]> (l ++ replicate (S n) z) = (l ++ [x]) ++ replicate n z.
Proof.
  rewrite insert_app_r_alt, Nat.sub_diag by lia. simpl.
  rewrite <- app_assoc. reflexivity.
Qed.

Lemma fill_row P s pre post n :
  forall j,
    (forall a, j <= a < j + n -> exists t, first_outcome P s a = Ok t) ->
    length pre = s ->
    for_each (seq j n)
      (fun T a => t ← first_outcome P s a;
                  Ok (tensor_set T s a (transition_row t)))
      (pre ++ (dense_row P s j ++ replicate n (replicate 4 0%Q)) :: post)
    = Ok (pre ++ dense_row P s (j + n) :: post).
Proof.
  induction n as [|n IH]; intros j Hf Hs.
  - simpl. rewrite app_nil_r, Nat.add_0_r. reflexivity.
  - cbn [seq for_each]. destruct (Hf j ltac:(lia)) as [t Ht].
    rewrite Ht. cbn [mbind result_bind]. subst s.
    rewrite tensor_set_middle.
    pose proof (insert_next (dense_row P (length pre) j) (replicate 4 0%Q)
                  (transition_row t) n) as Hi.
    replace (length (dense_row P (length pre) j)) with j in Hi
      by (unfold dense_row; rewrite length_fmap, length_seq; reflexivity).
    rewrite Hi; clear Hi.
    replace (dense_row P (length pre) j ++ [transition_row t])
      with (dense_row P (length pre) (S j))
      by (rewrite dense_row_S; unfold first_of; rewrite Ht; reflexivity).
    rewrite IH; [|intros a Ha; apply Hf; lia|reflexivity].
    replace (j + S n) with (S j + n) by lia. reflexivity.
Qed.

Lemma fill_rows P nA n :
  forall k,
    (forall s a, k <= s < k + n -> a < nA -> exists t, first_outcome P s a = Ok t) ->
    for_each (seq k n)
      (fun T s =>
         for_each (seq 0 nA)
           (fun T a => t ← first_outcome P s a;
                       Ok (tensor_set T s a (transition_row t))) T)
      (((fun s => dense_row P s nA) <$> seq 0 k)
         ++ replicate n (replicate nA (replicate 4 0%Q)))
    = Ok ((fun s => dense_row P s nA) <$> seq 0 (k + n)).
Proof.
  induction n as [|n IH]; intros k Hf.
  - simpl. rewrite app_nil_r, Nat.add_0_r. reflexivity.
  - cbn [seq for_each]. change (replicate (S n) ?z) with (z :: replicate n z).
    pose proof (fill_row P k ((fun s => dense_row P s nA) <$> seq 0 k)
                  (replicate n (replicate nA (replicate 4 0%Q))) nA 0) as Hr.
    change (dense_row P k 0) with (@nil (list Q)) in Hr.
    rewrite app_nil_l, Nat.add_0_l in Hr.
    rewrite Hr; clear Hr.
    + cbn [mbind result_bind].
      replace (((fun s => dense_row P s nA) <$> seq 0 k) ++
               dense_row P k nA :: replicate n (replicate nA (replicate 4 0%Q)))
        with (((fun s => dense_row P s nA) <$> seq 0 (S k)) ++
              replicate n (replicate nA (replicate 4 0%Q)))
        by (rewrite seq_S, fmap_app, <- app_assoc; reflexivity).
      rewrite IH; [|intros s a Hs Ha; apply Hf; lia].
      replace (k + S n) with (S k + n) by lia. reflexivity.
    + intros a Ha. apply Hf; lia.
    + rewrite length_fmap, length_seq. reflexivity.
Qed.

Lemma Qtruncate_inject_Z z : Qtruncate (inject_Z z) = z.
Proof. unfold Qtruncate, inject_Z. simpl. apply Z.quot_1_r. Qed.

(** On such a model the three arrays hold, at [[s][a]], the probability,
    next state and reward of the first outcome listed for [(s, a)]. *)
Lemma p_to_tensor_dense P nS nA :
  (forall s a, s < nS -> a < nA -> exists t, first_outcome P s a = Ok t) ->
  p_to_tensor P nS nA
  = Ok {| prob := dense nS nA (fun s a => probability (first_of P s a));
          s_next := dense nS nA (fun s a => nextstate (first_of P s a));
          r := dense nS nA (fun s a => reward (first_of P s a)) |}.
Proof.
  intros Hf. unfold p_to_tensor.
  pose proof (fill_rows P nA nS 0) as Hr.
  cbn [seq fmap list_fmap app Nat.add] in Hr.
  rewrite Hr by (intros; apply Hf; lia). clear Hr.
  cbn [mbind result_bind]. f_equal.
  unfold tensor_slice, np_map2, dense, dense_row. f_equal.
  - rewrite <- list_fmap_compose. apply list_fmap_ext. intros _ s _. simpl.
    rewrite <- list_fmap_compose. reflexivity.
  - rewrite <- !list_fmap_compose. apply list_fmap_ext. intros _ s _. simpl.
    rewrite <- !list_fmap_compose. apply list_fmap_ext. intros _ a _. simpl.
    apply Qtruncate_inject_Z.
  - rewrite <- list_fmap_compose. apply list_fmap_ext. intros _ s _. simpl.
    rewrite <- list_fmap_compose. reflexivity.
Qed.

(** ** Runs of the routines, in terms of their store-free forms *)

Lemma get_float_run l w v : farrs w !! l = Some v -> get_float l w = Ret v w.
Proof. unfold get_float. now intros ->. Qed.

Lemma get_int_run l w v : iarrs w !! l = Some v -> get_int l w = Ret v w.
Proof. unfold get_int. now intros ->. Qed.

Lemma new_float_lookup w x :
  farrs {| farrs := farrs w ++ [x]; iarrs := iarrs w; stdout := stdout w |}
    !! length (farrs w) = Some x.
Proof. simpl. rewrite lookup_app_r, Nat.sub_diag by lia. reflexivity. Qed.

Lemma pe_loop_run pp sn rp gamma tol fuel :
  forall V w v,
    farrs w !! V = Some v ->
    match fixpoint_loop fuel (pe_backup pp sn rp gamma) tol v with
    | Ok (Some x) =>
        exists l w', pe_loop fuel pp sn rp gamma tol V w = Ret l w' /\
                     farrs w' !! l = Some x
    | Ok None => pe_loop fuel pp sn rp gamma tol V w = Looping
    | Err e => pe_loop fuel pp sn rp gamma tol V w = Raise e
    end.
Proof.
  induction fuel as [|n IH]; intros V w v HV; [reflexivity|].
  cbn [fixpoint_loop pe_loop]. rewrite bind_run, (get_float_run _ _ _ HV).
  rewrite bind_run.
  destruct (pe_backup pp sn rp gamma v) as [x|e]; [|reflexivity].
  cbn [lift mbind result_bind]. rewrite bind_run. cbn [new_float].
  rewrite bind_run, (get_float_run _ _ x (new_float_lookup w x)).
  rewrite bind_run.
  destruct (sup_distance v x) as [d|e]; [|reflexivity].
  cbn [lift mbind result_bind]. destruct (Qltb d tol).
  - eexists _, _. split; [reflexivity|]. apply new_float_lookup.
  - unfold copy_float. rewrite bind_run, bind_run.
    rewrite (get_float_run _ _ x (new_float_lookup w x)). cbn [new_float].
    apply IH. apply new_float_lookup.
Qed.

Lemma policy_evaluation_run fuel P nS nA policy gamma tol w pol :
  iarrs w !! policy = Some pol ->
  match evaluation_values fuel P nS nA pol gamma tol with
  | Ok (Some x) =>
      exists l w', policy_evaluation fuel P nS nA policy gamma tol w = Ret l w' /\
                   farrs w' !! l = Some x
  | Ok None => policy_evaluation fuel P nS nA policy gamma tol w = Looping
  | Err e => policy_evaluation fuel P nS nA policy gamma tol w = Raise e
  end.
Proof.
  intros Hp. unfold evaluation_values, policy_evaluation, policy_columns.
  rewrite bind_run. cbn [new_float]. rewrite bind_run.
  destruct (p_to_tensor P nS nA) as [T|e]; [|reflexivity].
  cbn [lift mbind result_bind]. unfold copy_float.
  rewrite bind_run, bind_run.
  rewrite (get_float_run _ _ _ (new_float_lookup w (np_zeros nS))).
  cbn [new_float]. rewrite bind_run.
  rewrite (get_int_run policy _ pol) by exact Hp.
  rewrite bind_run.
  destruct (np_binop Z.add _ pol) as [idx|e]; [|reflexivity].
  cbn [lift mbind result_bind]. rewrite bind_run.
  destruct (np_take (concat (prob T)) idx) as [pp|e]; [|reflexivity].
  cbn [lift mbind result_bind]. rewrite bind_run.
  destruct (np_take (concat (s_next T)) idx) as [sn|e]; [|reflexivity].
  cbn [lift mbind result_bind]. rewrite bind_run.
  destruct (np_take (concat (r T)) idx) as [rp|e]; [|reflexivity].
  cbn [lift mbind result_bind fst snd]. rewrite bind_run.
  match goal with
  | |- context [pe_loop fuel pp sn rp gamma tol ?V ?w1] =>
      assert (HV : farrs w1 !! V = Some (np_zeros nS))
        by (simpl; rewrite lookup_app_l by (rewrite length_app; simpl; lia);
            rewrite lookup_app_r, Nat.sub_diag by lia; reflexivity);
      pose proof (pe_loop_run pp sn rp gamma tol fuel V w1 _ HV) as Hl
  end.
  destruct (fixpoint_loop fuel _ tol (np_zeros nS)) as [[x|]|e].
  - destruct Hl as (l & w' & -> & Hx). eauto.
  - rewrite Hl. reflexivity.
  - rewrite Hl. reflexivity.
Qed.

Lemma policy_improvement_run P nS nA value_from_policy policy gamma w v :
  farrs w !! value_from_policy = Some v ->
  policy_improvement P nS nA value_from_policy policy gamma w
  = match greedy P nS nA gamma v with
    | Ok best =>
        Ret (S (length (iarrs w)))
            {| farrs := farrs w;
               iarrs := iarrs w ++ [np_zeros_int nS; best];
               stdout := stdout w ++ [best] |}
    | Err e => Raise e
    end.
Proof.
  intros Hv. unfold policy_improvement, greedy.
  rewrite bind_run. cbn [new_int]. rewrite bind_run.
  destruct (p_to_tensor P nS nA) as [T|e]; [|reflexivity].
  cbn [lift mbind result_bind]. rewrite bind_run.
  rewrite (get_float_run value_from_policy _ v) by exact Hv.
  rewrite bind_run.
  destruct (q_values T gamma v) as [V_pi|e]; [|reflexivity].
  cbn [lift mbind result_bind]. rewrite bind_run.
  destruct (np_argmax_axis1 nA V_pi) as [best|e]; [|reflexivity].
  cbn [lift mbind result_bind]. rewrite bind_run. cbn [new_int iarrs]. rewrite bind_run.
  unfold print. cbn [iarrs farrs stdout].
  rewrite length_app. cbn [length].
  replace (((iarrs w ++ [np_zeros_int nS]) ++ [best]) !! (length (iarrs w) + 1))
    with (Some best).
  - cbn [mret M_ret]. rewrite <- app_assoc. cbn [app]. f_equal. lia.
  - symmetry. rewrite lookup_app_r by (rewrite length_app; simpl; lia).
    rewrite length_app. simpl.
    replace (length (iarrs w) + 1 - (length (iarrs w) + 1)) with 0 by lia.
    reflexivity.
Qed.

Lemma vi_sweep_run T nS nA gamma V w v :
  farrs w !! V = Some v ->
  vi_sweep T nS nA gamma V w
  = match vi_step T nS nA gamma v with
    | Ok x =>
        Ret (length (farrs w))
            {| farrs := farrs w ++ [x]; iarrs := iarrs w; stdout := stdout w |}
    | Err e => Raise e
    end.
Proof.
  intros HV. unfold vi_sweep, vi_step.
  rewrite bind_run. cbn [new_float]. rewrite bind_run.
  rewrite (get_float_run V _ v)
    by (simpl; rewrite lookup_app_l; [exact HV|eapply lookup_lt_Some; eauto]).
  rewrite bind_run.
  destruct (q_values T gamma v) as [Qsa|e]; [|reflexivity].
  cbn [lift mbind result_bind]. rewrite bind_run.
  destruct (np_max_axis1 nA Qsa) as [best|e]; [|reflexivity].
  cbn [lift mbind result_bind]. rewrite bind_run.
  rewrite (get_float_run _ _ _ (new_float_lookup w (np_zeros nS))).
  rewrite bind_run.
  destruct (np_binop_out Qmaximum (np_zeros nS) (np_zeros nS) best) as [x|e];
    [|reflexivity].
  cbn [lift mbind result_bind]. rewrite bind_run. unfold set_float.
  rewrite (new_float_lookup w (np_zeros nS)). cbn [farrs iarrs stdout].
  rewrite insert_app_r_alt, Nat.sub_diag by lia. reflexivity.
Qed.

Lemma vi_loop_run T nS nA gamma tol fuel :
  forall V w v,
    farrs w !! V = Some v ->
    match fixpoint_loop fuel (vi_step T nS nA gamma) tol v with
    | Ok (Some x) =>
        exists l w', vi_loop fuel T nS nA gamma tol V w = Ret l w' /\
                     farrs w' !! l = Some x
    | Ok None => vi_loop fuel T nS nA gamma tol V w = Looping
    | Err e => vi_loop fuel T nS nA gamma tol V w = Raise e
    end.
Proof.
  induction fuel as [|n IH]; intros V w v HV; [reflexivity|].
  cbn [fixpoint_loop vi_loop]. rewrite bind_run, (vi_sweep_run _ _ _ _ _ _ v HV).
  destruct (vi_step T nS nA gamma v) as [x|e]; [|reflexivity].
  cbn [mbind result_bind]. rewrite bind_run.
  rewrite (get_float_run V _ v)
    by (simpl; rewrite lookup_app_l; [exact HV|eapply lookup_lt_Some; eauto]).
  rewrite bind_run, (get_float_run _ _ x (new_float_lookup w x)).
  rewrite bind_run.
  destruct (sup_distance v x) as [d|e]; [|reflexivity].
  cbn [lift mbind result_bind]. destruct (Qltb d tol).
  - eexists _, _. split; [reflexivity|]. apply new_float_lookup.
  - unfold copy_float. rewrite bind_run, bind_run.
    rewrite (get_float_run _ _ x (new_float_lookup w x)). cbn [new_float].
    apply IH. apply new_float_lookup.
Qed.

(** ** The value function that the entry points return *)

(** [value_function] is bound once, to [np.zeros(nS)]; the loops rebind
    [V] and write only into arrays allocated later. *)
Lemma value_iteration_value_function fuel P nS nA gamma tol w vf pol w' :
  value_iteration fuel P nS nA gamma tol w = Ret (vf, pol) w' ->
  farrs w' !! vf = Some (np_zeros nS).
Proof.
  unfold value_iteration. intros H.
  apply bind_Ret_inv in H as (vf0 & w1 & H0 & H).
  assert (Hz : farrs w1 !! vf0 = Some (np_zeros nS))
    by (injection H0 as <- <-; apply new_float_lookup).
  clear H0.
  apply bind_Ret_inv in H as (p0 & w2 & H0 & H).
  apply extends_new_int in H0.
  apply bind_Ret_inv in H as (T & w3 & H1 & H).
  apply extends_lift in H1.
  apply bind_Ret_inv in H as (l & w4 & H2 & H).
  apply vi_loop_extends in H2.
  apply bind_Ret_inv in H as (p1 & w5 & H3 & H).
  apply policy_improvement_extends in H3.
  injection H as <- <- <-.
  eauto 10 using grows_float.
Qed.

Lemma policy_iteration_value_function fuel P nS nA gamma tol w vf pol w' :
  policy_iteration fuel P nS nA gamma tol w = Ret (vf, pol) w' ->
  farrs w' !! vf = Some (np_zeros nS).
Proof.
  unfold policy_iteration. intros H.
  apply bind_Ret_inv in H as (vf0 & w1 & H0 & H).
  assert (Hz : farrs w1 !! vf0 = Some (np_zeros nS))
    by (injection H0 as <- <-; apply new_float_lookup).
  clear H0.
  apply bind_Ret_inv in H as (p0 & w2 & H0 & H).
  apply extends_new_int in H0.
  apply bind_Ret_inv in H as (V & w3 & H1 & H).
  apply policy_evaluation_extends in H1.
  apply bind_Ret_inv in H as (p1 & w4 & H2 & H).
  apply pi_loop_extends in H2.
  injection H as <- <- <-.
  eauto 10 using grows_float.
Qed.

(** C1 (the code departs from it).  On the two-state model with
    gamma = 1/2 and tol = 1/1000 both entry points return, and the value
    function each returns is the array of zeros it allocated first: for
    [value_iteration] although its loop (the body of the routine up to the
    end of the loop, run from the same store) left with an iterate close
    to (5/2, 5), for [policy_iteration] although evaluating the policy it
    returns gives values close to (5/2, 5). *)
Theorem value_function_returned_is_the_initial_zeros :
  returns (value_iteration 30 two_state 2 2 (1 # 2) (1 # 1000) empty_world)
    (fun '(vf, pol) w' =>
       farrs w' !! vf = Some [0; 0]%Q /\
       iarrs w' !! pol = Some [1; 0]%Z /\
       returns ((value_function ← new_float (np_zeros 2);
                 policy ← new_int (np_zeros_int 2);
                 T ← lift (p_to_tensor two_state 2 2);
                 vi_loop 30 T 2 2 (1 # 2) (1 # 1000) value_function)
                  empty_world)
         (fun V_new w2 =>
            farrs w2 !! V_new
            = Some [83865600 # 33554432; 335503360 # 67108864]%Q)) /\
  returns (policy_iteration 30 two_state 2 2 (1 # 2) (1 # 1000) empty_world)
    (fun '(vf, pol) w' =>
       farrs w' !! vf = Some [0; 0]%Q /\
       iarrs w' !! pol = Some [1; 0]%Z /\
       returns (policy_evaluation 30 two_state 2 2 pol (1 # 2) (1 # 1000) w')
         (fun V w2 =>
            farrs w2 !! V
            = Some [83865600 # 33554432; 335503360 # 67108864]%Q)).
Proof. split; vm_compute; repeat split; reflexivity. Qed.

(** ** The tolerance of the evaluations inside policy iteration *)

Lemma pi_loop_default_tol fuel budget P nS nA gamma :
  forall V policy w,
    pi_loop fuel budget P nS nA gamma V policy w
    = pi_loop_with_tol fuel budget P nS nA gamma default_tol V policy w.
Proof.
  induction fuel as [|n IH]; intros V policy w; [reflexivity|].
  cbn [pi_loop pi_loop_with_tol]. rewrite !bind_run.
  destruct (policy_improvement _ _ _ V policy gamma w) as [pn w1|e|];
    try reflexivity.
  rewrite !bind_run.
  destruct (policy_evaluation budget _ _ _ pn _ _ w1) as [vn w2|e|];
    try reflexivity.
  rewrite !bind_run. destruct (get_int policy w2) as [p w3|e|]; try reflexivity.
  rewrite !bind_run. destruct (get_int pn w3) as [p' w4|e|]; try reflexivity.
  destruct (np_array_equal p p'); [reflexivity|].
  rewrite !bind_run. destruct (copy_float vn w4) as [c w5|e|]; try reflexivity.
  rewrite !bind_run. destruct (copy_int pn w5) as [c' w6|e|]; try reflexivity.
  apply IH.
Qed.

(** C4 (the code departs from it).  Whatever [tol] the caller gives,
    [policy_iteration] runs as if every evaluation were called with the
    default 1/1000: [tol] is not handed on.  On the two-state model with
    gamma = 1/2 and tol = 10 the routine returns the policy (1, 0), where
    evaluations that inherit tol = 10 stop after one sweep and give (0, 0). *)
Theorem policy_iteration_does_not_pass_tol :
  (forall fuel P nS nA gamma tol w,
     policy_iteration fuel P nS nA gamma tol w
     = policy_iteration_with_tol fuel P nS nA gamma default_tol w) /\
  returns (policy_iteration 30 two_state 2 2 (1 # 2) 10 empty_world)
    (fun '(vf, pol) w' => iarrs w' !! pol = Some [1; 0]%Z) /\
  returns (policy_iteration_with_tol 30 two_state 2 2 (1 # 2) 10 empty_world)
    (fun '(vf, pol) w' => iarrs w' !! pol = Some [0; 0]%Z).
Proof.
  split; [|split; vm_compute; reflexivity].
  intros fuel P nS nA gamma tol w.
  unfold policy_iteration, policy_iteration_with_tol. rewrite !bind_run.
  destruct (new_float _ w) as [vf w1|e|]; try reflexivity.
  rewrite !bind_run. destruct (new_int _ w1) as [pol w2|e|]; try reflexivity.
  rewrite !bind_run.
  destruct (policy_evaluation fuel _ _ _ pol _ _ w2) as [V w3|e|];
    try reflexivity.
  rewrite !bind_run, pi_loop_default_tol. reflexivity.
Qed.

(** ** No iteration cap, no validation *)

Lemma Qltb_lt a b : Qltb a b = true <-> (a < b)%Q.
Proof.
  unfold Qltb. rewrite negb_true_iff, <- not_true_iff_false, Qle_bool_iff.
  split; [apply Qnot_le_lt | apply Qlt_not_le].
Qed.

Lemma Qltb_ge a b : Qltb a b = false <-> (b <= a)%Q.
Proof.
  unfold Qltb. rewrite negb_false_iff. apply Qle_bool_iff.
Qed.

(** With gamma = 2 on the unit-reward self-loop the iterates are
    [x], [1 + 2 x], ... and two successive ones are at least 1 apart. *)
Lemma doubling_loop_never_leaves fuel :
  forall x, (0 <= x)%Q ->
    fixpoint_loop fuel (pe_backup [1%Q] [0%Z] [1%Q] 2) (1 # 1000) [x] = Ok None.
Proof.
  induction fuel as [|n IH]; intros x Hx; [reflexivity|].
  cbn [fixpoint_loop].
  change (pe_backup [1%Q] [0%Z] [1%Q] 2 [x]) with (Ok [(1 * (1 + 2 * x))%Q]).
  cbn [mbind result_bind].
  change (sup_distance [x] [(1 * (1 + 2 * x))%Q])
    with (Ok (Qabs (x - 1 * (1 + 2 * x)))).
  cbn [mbind result_bind].
  destruct (Qltb _ _) eqn:E.
  - exfalso. apply Qltb_lt in E.
    rewrite Qabs_neg in E by lra. lra.
  - apply IH. lra.
Qed.

(** C2, as stated, fails: with gamma = 2, tol = 1/1000 and the policy (0)
    on the unit-reward self-loop, [policy_evaluation] is still in its loop
    after any number of iterations; it neither returns nor raises. *)
Lemma policy_evaluation_loops_forever :
  never_leaves (fun fuel =>
    policy_evaluation fuel (self_loop 1) 1 1 0 2 (1 # 1000)
      (world_with_policy [0%Z])).
Proof.
  intros fuel.
  pose proof (policy_evaluation_run fuel (self_loop 1) 1 1 0 2 (1 # 1000)
                (world_with_policy [0%Z]) [0%Z] eq_refl) as H.
  replace (evaluation_values fuel (self_loop 1) 1 1 [0%Z] 2 (1 # 1000))
    with (@Ok (option (list Q)) None) in H; [exact H|].
  symmetry. apply (doubling_loop_never_leaves fuel 0%Q). lra.
Qed.

(** C2, amended.  No convergence loop has a maximum iteration count and
    none raises NonConvergence: whatever the inputs, a routine that has
    left its loops after [n] iterations gives the same run under every
    larger budget, and no run ends in NonConvergence. *)
Theorem loops_have_no_iteration_cap :
  forall P nS nA policy gamma tol,
    (forall fuel w,
       policy_evaluation fuel P nS nA policy gamma tol w <> Raise NonConvergence /\
       value_iteration fuel P nS nA gamma tol w <> Raise NonConvergence /\
       policy_iteration fuel P nS nA gamma tol w <> Raise NonConvergence) /\
    budget_free (fun n => policy_evaluation n P nS nA policy gamma tol) /\
    budget_free (fun n => value_iteration n P nS nA gamma tol) /\
    budget_free (fun n => policy_iteration n P nS nA gamma tol).
Proof.
  intros P nS nA policy gamma tol. split; [|split; [|split]].
  - intros fuel w. repeat split; intros H.
    + apply policy_evaluation_builtin, builtin_not_spec_error in H. tauto.
    + apply value_iteration_builtin, builtin_not_spec_error in H. tauto.
    + apply policy_iteration_builtin, builtin_not_spec_error in H. tauto.
  - apply policy_evaluation_budget_free.
  - apply value_iteration_budget_free.
  - apply policy_iteration_budget_free.
Qed.



(** ** The adapter reads the first outcome *)

Lemma first_outcome_cons P s a t rest :
  outcomes P s a = Some (t :: rest) -> first_outcome P s a = Ok t.
Proof.
  unfold outcomes, first_outcome. destruct (P !! s) as [Ps|]; [|discriminate].
  simpl. intros ->. reflexivity.
Qed.





(** ** The greedy choice *)

Lemma argmax_from_spec xs :
  forall best bestv i,
    (argmax_from best bestv i xs = best /\
     forall k y, xs !! k = Some y -> (y <= bestv)%Q) \/
    (exists k m,
       argmax_from best bestv i xs = i + k /\ xs !! k = Some m /\
       (bestv < m)%Q /\
       (forall k' y, xs !! k' = Some y -> (y <= m)%Q) /\
       (forall k' y, k' < k -> xs !! k' = Some y -> (y < m)%Q)).
Proof.
  induction xs as [|x rest IH]; intros best bestv i.
  - left. split; [reflexivity|]. intros k y H. discriminate.
  - cbn [argmax_from]. destruct (Qltb bestv x) eqn:E.
    + apply Qltb_lt in E. right.
      destruct (IH i x (S i))
        as [[Hj Hall]|(k & m & Hj & Hk & Hlt & Hall & Hbefore)].
      * exists 0, x. rewrite Hj, Nat.add_0_r.
        split; [reflexivity|]. split; [reflexivity|]. split; [exact E|]. split.
        -- intros [|k'] y Hy; simpl in Hy; [injection Hy as <-; lra|eauto].
        -- intros k' y Hk'. lia.
      * exists (S k), m. rewrite Hj.
        split; [lia|]. split; [exact Hk|]. split; [lra|]. split.
        -- intros [|k'] y Hy; simpl in Hy; [injection Hy as <-; lra|eauto].
        -- intros [|k'] y Hk' Hy; simpl in Hy; [injection Hy as <-; lra|].
           eapply Hbefore; [|eauto]. lia.
    + apply Qltb_ge in E.
      destruct (IH best bestv (S i))
        as [[Hj Hall]|(k & m & Hj & Hk & Hlt & Hall & Hbefore)].
      * left. split; [exact Hj|].
        intros [|k'] y Hy; simpl in Hy; [injection Hy as <-; lra|eauto].
      * right. exists (S k), m. rewrite Hj.
        split; [lia|]. split; [exact Hk|]. split; [exact Hlt|]. split.
        -- intros [|k'] y Hy; simpl in Hy; [injection Hy as <-; lra|eauto].
        -- intros [|k'] y Hk' Hy; simpl in Hy; [injection Hy as <-; lra|].
           eapply Hbefore; [|eauto]. lia.
Qed.

Lemma np_argmax_lowest row z :
  np_argmax row = Ok z -> exists a, z = Z.of_nat a /\ lowest_maximizer row a.
Proof.
  destruct row as [|x rest]; [discriminate|]. cbn [np_argmax]. intros [= <-].
  eexists. split; [reflexivity|]. unfold lowest_maximizer.
  destruct (argmax_from_spec rest 0 x 1)
    as [[-> Hall]|(k & m & -> & Hk & Hlt & Hall & Hbefore)].
  - exists x. split; [reflexivity|]. split.
    + intros [|a'] q' Hq; simpl in Hq; [injection Hq as <-; lra | eauto].
    + intros; lia.
  - exists m. split; [exact Hk|]. split.
    + intros [|a'] q' Hq; simpl in Hq; [injection Hq as <-; lra | eauto].
    + intros [|a'] q' Hq Heq; simpl in Hq.
      * injection Hq as <-. lra.
      * destruct (decide (a' < k)) as [Hlt'|]; [|lia].
        specialize (Hbefore a' q' Hlt' Hq). lra.
Qed.

Lemma map_result_lookup {A B} (f : A -> result B) xs ys :
  map_result f xs = Ok ys ->
  length ys = length xs /\
  forall i x, xs !! i = Some x -> exists y, ys !! i = Some y /\ f x = Ok y.
Proof.
  revert ys. induction xs as [|x xs IH]; intros ys; cbn [map_result].
  - intros [= <-]. split; [reflexivity|]. intros i x H. discriminate.
  - intros H. apply result_bind_Ok_inv in H as (y & Hy & H).
    apply result_bind_Ok_inv in H as (ys' & Hys & H). injection H as <-.
    destruct (IH _ Hys) as [Hlen Hall]. split; [simpl; lia|].
    intros [|i] x' Hx; simpl in Hx.
    + injection Hx as <-. exists y. auto.
    + apply Hall in Hx. exact Hx.
Qed.

Lemma greedy_lowest_maximizers P nS nA gamma v best :
  greedy P nS nA gamma v = Ok best ->
  exists T Qsa, p_to_tensor P nS nA = Ok T /\ q_values T gamma v = Ok Qsa /\
                lowest_maximizers Qsa best.
Proof.
  unfold greedy. intros H.
  apply result_bind_Ok_inv in H as (T & HT & H).
  apply result_bind_Ok_inv in H as (Qsa & HQ & H).
  exists T, Qsa. split; [exact HT|]. split; [exact HQ|].
  unfold np_argmax_axis1 in H. destruct (nA =? 0); [discriminate|].
  apply map_result_lookup in H as [Hlen Hall]. split; [exact Hlen|].
  intros s row Hrow. destruct (Hall s row Hrow) as (z & Hz & Ha).
  apply np_argmax_lowest in Ha as (a & -> & Ha). eauto.
Qed.

Lemma policy_improvement_returns P nS nA vloc ploc gamma w v l w' :
  farrs w !! vloc = Some v ->
  policy_improvement P nS nA vloc ploc gamma w = Ret l w' ->
  exists best,
    greedy P nS nA gamma v = Ok best /\
    l = S (length (iarrs w)) /\
    w' = {| farrs := farrs w;
            iarrs := iarrs w ++ [np_zeros_int nS; best];
            stdout := stdout w ++ [best] |}.
Proof.
  intros Hv H. rewrite (policy_improvement_run _ _ _ _ _ _ _ v Hv) in H.
  destruct (greedy P nS nA gamma v) as [best|e]; [|discriminate].
  injection H as <- <-. eauto.
Qed.

Lemma new_policy_lookup (w : world) (zs best : list Z) :
  (iarrs w ++ [zs; best]) !! S (length (iarrs w)) = Some best.
Proof.
  rewrite lookup_app_r by lia.
  replace (S (length (iarrs w)) - length (iarrs w)) with 1 by lia.
  reflexivity.
Qed.



(** ** The prior policy *)

(** C9.  Two calls of [policy_improvement] on the same model, gamma and
    value-function contents, from any two stores and with any two prior
    policies, end alike: either both raise the same exception, or both
    return (and print) arrays with the same contents; and a call that
    returns leaves every integer array that was in the store, the prior
    policy among them, and every float array as it was. *)
Theorem policy_improvement_ignores_prior_policy
  P nS nA gamma v vloc1 vloc2 p1 p2 w1 w2 :
  farrs w1 !! vloc1 = Some v ->
  farrs w2 !! vloc2 = Some v ->
  match policy_improvement P nS nA vloc1 p1 gamma w1,
        policy_improvement P nS nA vloc2 p2 gamma w2 with
  | Ret l1 w1', Ret l2 w2' =>
      (exists best,
         iarrs w1' !! l1 = Some best /\ iarrs w2' !! l2 = Some best /\
         stdout w1' = stdout w1 ++ [best] /\
         stdout w2' = stdout w2 ++ [best]) /\
      (forall l xs, iarrs w1 !! l = Some xs -> iarrs w1' !! l = Some xs) /\
      (forall l xs, iarrs w2 !! l = Some xs -> iarrs w2' !! l = Some xs) /\
      farrs w1' = farrs w1 /\ farrs w2' = farrs w2
  | Raise e1, Raise e2 => e1 = e2
  | _, _ => False
  end.
Proof.
  intros H1 H2.
  rewrite (policy_improvement_run _ _ _ _ _ _ _ v H1).
  rewrite (policy_improvement_run _ _ _ _ _ _ _ v H2).
  destruct (greedy P nS nA gamma v) as [best|e]; [|reflexivity].
  split; [|split; [|split; [|split]]]; try reflexivity.
  - exists best. split; [apply new_policy_lookup|].
    split; [apply new_policy_lookup|]. split; reflexivity.
  - intros l xs Hl. cbn [iarrs]. apply lookup_app_l_Some. exact Hl.
  - intros l xs Hl. cbn [iarrs]. apply lookup_app_l_Some. exact Hl.
Qed.

Lemma policy_improvement_ignores_prior_policy_witness :
  farrs (world_with [0%Q] [1%Z]) !! 0 = Some [0%Q] /\
  farrs (world_with [0%Q] [0%Z]) !! 0 = Some [0%Q] /\
  match policy_improvement tied 1 2 0 0 (1 # 2) (world_with [0%Q] [1%Z]),
        policy_improvement tied 1 2 0 0 (1 # 2) (world_with [0%Q] [0%Z]) with
  | Ret l1 w1', Ret l2 w2' =>
      (exists best,
         iarrs w1' !! l1 = Some best /\ iarrs w2' !! l2 = Some best /\
         stdout w1' = stdout (world_with [0%Q] [1%Z]) ++ [best] /\
         stdout w2' = stdout (world_with [0%Q] [0%Z]) ++ [best]) /\
      (forall l xs, iarrs (world_with [0%Q] [1%Z]) !! l = Some xs ->
                    iarrs w1' !! l = Some xs) /\
      (forall l xs, iarrs (world_with [0%Q] [0%Z]) !! l = Some xs ->
                    iarrs w2' !! l = Some xs) /\
      farrs w1' = farrs (world_with [0%Q] [1%Z]) /\
      farrs w2' = farrs (world_with [0%Q] [0%Z])
  | Raise e1, Raise e2 => e1 = e2
  | _, _ => False
  end.
Proof.
  split; [reflexivity|]. split; [reflexivity|].
  apply (policy_improvement_ignores_prior_policy tied 1 2 (1 # 2) [0%Q]
           0 0 0 0 (world_with [0%Q] [1%Z]) (world_with [0%Q] [0%Z]));
    reflexivity.
Defined.

(** ** Shapes *)

Lemma for_each_preserves {A S} (I : S -> Prop) (body : S -> A -> result S) xs :
  (forall acc x acc', I acc -> body acc x = Ok acc' -> I acc') ->
  forall acc acc', I acc -> for_each xs body acc = Ok acc' -> I acc'.
Proof.
  intros Hb. induction xs as [|x xs IH]; intros acc acc' Hacc; cbn [for_each].
  - intros [= <-]. exact Hacc.
  - intros H. apply result_bind_Ok_inv in H as (acc1 & H1 & H). eauto.
Qed.

Lemma tensor_set_length T s a row : length (tensor_set T s a row) = length T.
Proof. unfold tensor_set. destruct (T !! s); [apply length_insert|reflexivity]. Qed.

Lemma p_to_tensor_shape P nS nA T :
  p_to_tensor P nS nA = Ok T ->
  length (prob T) = nS /\ length (s_next T) = nS /\ length (r T) = nS.
Proof.
  unfold p_to_tensor. intros H.
  apply result_bind_Ok_inv in H as (PT & H & HT). injection HT as <-.
  assert (Hlen : length PT = nS).
  { revert H. apply (for_each_preserves (fun T => length T = nS)).
    - intros acc s acc' Hacc.
      apply (for_each_preserves (fun T => length T = nS)); [|exact Hacc].
      intros acc0 a acc1 H0 H1.
      apply result_bind_Ok_inv in H1 as (t & _ & H1). injection H1 as <-.
      rewrite tensor_set_length. exact H0.
    - apply length_replicate. }
  cbn [prob s_next r]. unfold tensor_slice, np_map2.
  rewrite !length_fmap. auto.
Qed.

Lemma map_result_length {A B} (f : A -> result B) xs ys :
  map_result f xs = Ok ys -> length ys = length xs.
Proof. intros H. apply map_result_lookup in H. tauto. Qed.

Lemma q_values_length T gamma v Qsa n :
  length (prob T) = n -> length (s_next T) = n -> length (r T) = n ->
  q_values T gamma v = Ok Qsa -> length Qsa = n.
Proof.
  intros Hp Hs Hr H. unfold q_values in H.
  apply result_bind_Ok_inv in H as (vs & Hvs & H). injection H as <-.
  apply map_result_length in Hvs. unfold np_binop2, np_map2.
  rewrite !length_zip_with, length_fmap. lia.
Qed.

Lemma np_max_axis1_length nA rows best :
  np_max_axis1 nA rows = Ok best -> length best = length rows.
Proof.
  unfold np_max_axis1. destruct (nA =? 0); [discriminate|].
  apply map_result_length.
Qed.

Lemma np_binop_same_length {A B C} (f : A -> B -> C) xs ys :
  length xs = length ys -> np_binop f xs ys = Ok (zip_with f xs ys).
Proof.
  intros H. unfold np_binop.
  destruct xs as [|x [|x' xs]], ys as [|y [|y' ys]]; try discriminate;
    try reflexivity.
  simpl in H. injection H as H. simpl length.
  rewrite H, Nat.eqb_refl. reflexivity.
Qed.

(** ** Value iteration clamps at zero *)

Lemma Qmaximum_zero_nonneg b : (0 <= Qmaximum 0 b)%Q.
Proof.
  unfold Qmaximum. destruct (Qle_bool 0 b) eqn:E.
  - now apply Qle_bool_iff.
  - apply Qle_refl.
Qed.

Lemma clamp_zeros n best :
  length best = n ->
  np_binop_out Qmaximum (np_zeros n) (np_zeros n) best
  = Ok (Qmaximum 0 <$> best).
Proof.
  intros H. unfold np_binop_out, np_zeros.
  rewrite np_binop_same_length by (rewrite length_replicate; lia).
  rewrite zip_with_replicate_l by lia. cbn [mbind result_bind].
  rewrite length_fmap, length_replicate, H, Nat.eqb_refl. reflexivity.
Qed.

Lemma vi_step_clamp P nS nA gamma T v x :
  p_to_tensor P nS nA = Ok T ->
  vi_step T nS nA gamma v = Ok x ->
  exists best, optimality_backup T nA gamma v = Ok best /\
               x = Qmaximum 0 <$> best.
Proof.
  intros HT H. unfold vi_step in H. unfold optimality_backup.
  apply result_bind_Ok_inv in H as (Qsa & HQ & H).
  apply result_bind_Ok_inv in H as (best & Hb & H).
  rewrite HQ. cbn [mbind result_bind]. exists best. split; [exact Hb|].
  destruct (p_to_tensor_shape _ _ _ _ HT) as (Hp & Hs & Hr).
  pose proof (q_values_length _ _ _ _ _ Hp Hs Hr HQ) as HlQ.
  apply np_max_axis1_length in Hb.
  rewrite clamp_zeros in H by lia. now injection H as <-.
Qed.

Lemma clamped_nonneg best : Forall (fun q => (0 <= q)%Q) (Qmaximum 0 <$> best).
Proof.
  apply Forall_fmap, Forall_forall. intros b _. apply Qmaximum_zero_nonneg.
Qed.


(** The run of [value_iteration], once it has returned. *)
Lemma value_iteration_returns fuel P nS nA gamma tol w vf pol w' :
  value_iteration fuel P nS nA gamma tol w = Ret (vf, pol) w' ->
  exists T x best,
    p_to_tensor P nS nA = Ok T /\
    fixpoint_loop fuel (vi_step T nS nA gamma) tol (np_zeros nS) = Ok (Some x) /\
    greedy P nS nA gamma x = Ok best /\
    iarrs w' !! pol = Some best.
Proof.
  unfold value_iteration. intros H.
  apply bind_Ret_inv in H as (vf0 & w1 & H0 & H). injection H0 as <- <-.
  apply bind_Ret_inv in H as (p0 & w2 & H0 & H). injection H0 as <- <-.
  apply bind_Ret_inv in H as (T & w3 & H0 & H).
  apply lift_Ret_inv in H0 as [HT ->].
  apply bind_Ret_inv in H as (l & w4 & Hl & H).
  apply bind_Ret_inv in H as (p1 & w5 & Hp & H). injection H as <- <- <-.
  match type of Hl with
  | vi_loop _ _ _ _ _ _ ?V ?w0 = _ =>
      pose proof (vi_loop_run T nS nA gamma tol fuel V w0 (np_zeros nS)
                    (new_float_lookup w (np_zeros nS))) as Hrun
  end.
  destruct (fixpoint_loop fuel _ tol (np_zeros nS)) as [[x|]|e] eqn:Hf;
    [|congruence|congruence].
  destruct Hrun as (l' & w4' & Hl' & Hx). rewrite Hl in Hl'.
  injection Hl' as <- <-.
  destruct (policy_improvement_returns _ _ _ _ _ _ _ _ _ _ Hx Hp)
    as (best & Hg & -> & ->).
  exists T, x, best.
  split; [exact HT|]. split; [exact Hf|]. split; [exact Hg|].
  apply new_policy_lookup.
Qed.

(** C7 (the code departs from it).  On the self-loop with reward -1, with
    gamma = 1/2 and the value function (0), the optimality backup is (-1),
    and the sweep of [value_iteration] leaves (0) in [V_new]; the loop
    then stops at once, with (0). *)
Theorem value_iteration_sweep_is_not_the_backup :
  let T := {| prob := [[1%Q]]; s_next := [[0%Z]]; r := [[(-1)%Q]] |} in
  p_to_tensor (self_loop (-1)) 1 1 = Ok T /\
  optimality_backup T 1 (1 # 2) [0%Q] = Ok [(-2 # 2)%Q] /\
  returns (vi_sweep T 1 1 (1 # 2) 0 (world_with [0%Q] []))
    (fun V_new w' => farrs w' !! V_new = Some [0%Q]) /\
  returns (vi_loop 30 T 1 1 (1 # 2) (1 # 1000) 0 (world_with [0%Q] []))
    (fun V_new w' => farrs w' !! V_new = Some [0%Q]).
Proof. repeat split; vm_compute; reflexivity. Qed.


(** ** The stopping rule *)





(** ** Indexing the dense arrays by a policy *)


Lemma np_index_of_nat {A} (xs : list A) i x :
  xs !! i = Some x -> np_index xs (Z.of_nat i) = Ok x.
Proof.
  intros H. unfold np_index.
  destruct (0 <=? Z.of_nat i)%Z eqn:E; [|apply Z.leb_gt in E; lia].
  rewrite Nat2Z.id, H. reflexivity.
Qed.


Lemma take_indices_dense nS nA pol :
  length pol = nS ->
  np_binop Z.add (Z.mul (Z.of_nat nA) <$> np_arange nS) pol
  = Ok ((fun s => (Z.of_nat nA * Z.of_nat s + nth s pol 0)%Z) <$> seq 0 nS).
Proof.
  intros Hlen. unfold np_arange.
  rewrite np_binop_same_length
    by (rewrite !length_fmap, length_seq; lia).
  f_equal. apply list_eq. intros i.
  rewrite lookup_zip_with, !list_lookup_fmap.
  destruct (decide (i < nS)) as [Hi|Hi].
  - rewrite lookup_seq_lt by exact Hi.
    destruct (lookup_lt_is_Some_2 pol i ltac:(lia)) as [a Ha].
    rewrite Ha. simpl. rewrite (nth_lookup_Some _ _ _ _ Ha). reflexivity.
  - rewrite lookup_seq_ge by lia. reflexivity.
Qed.





(** ** Geometric decay *)










(** With gamma in [0, 1) and tol > 0 the stopping rule holds at some
    index, hence at a first one. *)
(** ** Policy evaluation on a single-outcome model *)

Section SingleOutcomeEvaluation.

Context (P : model) (nS nA : nat) (pol : list Z) (gamma : Q).
Hypothesis model_ok : single_outcome P nS nA.
Hypothesis policy_ok : is_policy nS nA pol.
Hypothesis states : 0 < nS.

Let V := evaluation_iterate P nS pol gamma.

Lemma single_outcome_first s a :
  s < nS -> a < nA ->
  first_outcome P s a = Ok (the_outcome P s a) /\
  first_of P s a = the_outcome P s a /\
  (0 <= probability (the_outcome P s a) <= 1)%Q /\
  (0 <= nextstate (the_outcome P s a) < Z.of_nat nS)%Z.
Proof.
  intros Hs Ha. destruct (model_ok s a Hs Ha) as (t & Ho & Hp & Hn).
  pose proof (first_outcome_cons _ _ _ _ _ Ho) as Hf.
  unfold first_of, the_outcome. rewrite Hf, Ho. auto.
Qed.






Hypothesis gamma_nonneg : (0 <= gamma)%Q.



Hypothesis gamma_below_one : (gamma < 1)%Q.



End SingleOutcomeEvaluation.

(** ** Policy improvement returns on a single-outcome model *)

Lemma map_result_total {A B} (f : A -> result B) xs :
  (forall x, x ∈ xs -> exists y, f x = Ok y) ->
  exists ys, map_result f xs = Ok ys.
Proof.
  induction xs as [|x xs IH]; intros H; [eexists; reflexivity|].
  destruct (H x (list_elem_of_here _ _)) as [y Hy].
  destruct IH as [ys Hys];
    [intros z Hz; apply H; now apply list_elem_of_further|].
  exists (y :: ys). cbn [map_result]. rewrite Hy. cbn [mbind result_bind].
  rewrite Hys. reflexivity.
Qed.

Lemma np_index_in_range {A} (xs : list A) i :
  (0 <= i < Z.of_nat (length xs))%Z -> exists x, np_index xs i = Ok x.
Proof.
  intros Hi. destruct (lookup_lt_is_Some_2 xs (Z.to_nat i) ltac:(lia)) as [x Hx].
  exists x. replace i with (Z.of_nat (Z.to_nat i)) by lia.
  now apply np_index_of_nat.
Qed.

Lemma np_argmax_axis1_total nA rows :
  0 < nA -> Forall (fun row => length row = nA) rows ->
  exists best, np_argmax_axis1 nA rows = Ok best.
Proof.
  intros HnA Hrows. unfold np_argmax_axis1.
  destruct (nA =? 0) eqn:E; [apply Nat.eqb_eq in E; lia|].
  apply map_result_total. intros row Hrow.
  rewrite Forall_forall in Hrows. specialize (Hrows row Hrow).
  destruct row as [|x rest]; [simpl in Hrows; lia|].
  eexists. reflexivity.
Qed.

Lemma greedy_total P nS nA gamma v :
  single_outcome P nS nA -> 0 < nA -> length v = nS ->
  exists best, greedy P nS nA gamma v = Ok best.
Proof.
  intros HP HnA Hv. unfold greedy.
  rewrite p_to_tensor_dense
    by (intros s a Hs Ha; eexists;
        apply (single_outcome_first P nS nA HP s a Hs Ha)).
  cbn [mbind result_bind]. unfold q_values. cbn [prob s_next r].
  destruct (map_result_total (np_take v)
              (dense nS nA (fun s a => nextstate (first_of P s a))))
    as [vs Hvs].
  { intros row Hrow. unfold dense in Hrow.
    apply list_elem_of_fmap in Hrow as (s & -> & Hs). apply elem_of_seq in Hs.
    apply map_result_total. intros z Hz.
    apply list_elem_of_fmap in Hz as (a & -> & Ha). apply elem_of_seq in Ha.
    apply np_index_in_range.
    destruct (single_outcome_first P nS nA HP s a ltac:(lia) ltac:(lia))
      as (_ & -> & _ & Hn).
    lia. }
  rewrite Hvs. cbn [mbind result_bind].
  apply np_argmax_axis1_total; [exact HnA|].
  apply map_result_lookup in Hvs as [Hlen Hall].
  apply Forall_lookup. intros s row Hrow.
  unfold np_binop2, np_map2 in Hrow.
  apply lookup_zip_with_Some in Hrow as (ps & qs & -> & Hps & Hqs).
  apply lookup_zip_with_Some in Hqs as (rs & gs & -> & Hrs & Hgs).
  rewrite list_lookup_fmap in Hgs.
  destruct (vs !! s) as [vrow|] eqn:Hvrow; [|discriminate].
  injection Hgs as <-.
  assert (Hs : s < nS).
  { apply lookup_lt_Some in Hps. unfold dense in Hps.
    rewrite length_fmap, length_seq in Hps. exact Hps. }
  unfold dense in Hps, Hrs.
  rewrite list_lookup_fmap, lookup_seq_lt in Hps, Hrs by exact Hs.
  injection Hps as <-. injection Hrs as <-.
  destruct (Hall s ((fun a => nextstate (first_of P s a)) <$> seq 0 nA))
    as (vrow' & Hv' & Htake).
  { unfold dense. rewrite list_lookup_fmap, lookup_seq_lt by exact Hs.
    reflexivity. }
  rewrite Hvrow in Hv'. injection Hv' as <-.
  apply map_result_length in Htake.
  rewrite !length_zip_with, !length_fmap, length_seq, Htake, length_fmap,
    length_seq.
  lia.
Qed.

(** On a single-outcome model with at least one action, and for a value
    function with one value per state, [policy_improvement] returns. *)
Lemma policy_improvement_total P nS nA gamma vloc ploc w v :
  single_outcome P nS nA -> 0 < nA ->
  farrs w !! vloc = Some v -> length v = nS ->
  returns (policy_improvement P nS nA vloc ploc gamma w)
    (fun new_policy w' =>
       exists best, greedy P nS nA gamma v = Ok best /\
                    iarrs w' !! new_policy = Some best).
Proof.
  intros HP HnA Hv Hlen.
  destruct (greedy_total P nS nA gamma v HP HnA Hlen) as [best Hg].
  rewrite (policy_improvement_run _ _ _ _ _ _ _ v Hv), Hg.
  exists best. split; [reflexivity|]. apply new_policy_lookup.
Qed.



(** On that input the first stop is at k = 12: thirteen sweeps. *)
Example policy_evaluation_two_state :
  policy_evaluation 12 two_state 2 2 0 (1 # 2) (1 # 1000)
    (world_with_policy [0; 0]%Z) = Looping /\
  returns (policy_evaluation 13 two_state 2 2 0 (1 # 2) (1 # 1000)
             (world_with_policy [0; 0]%Z))
    (fun V w' =>
       farrs w' !! V
       = Some (evaluation_iterate two_state 2 [0; 0]%Z (1 # 2) 13)).
Proof. split; vm_compute; reflexivity. Qed.


(** * Further properties *)

(** ** When the adapter succeeds, and how it fails *)

Lemma for_each_app {A S} (body : S -> A -> result S) xs ys acc :
  for_each (xs ++ ys) body acc
  = (acc' ← for_each xs body acc; for_each ys body acc').
Proof.
  revert acc. induction xs as [|x xs IH]; intros acc; [reflexivity|].
  cbn [app for_each]. destruct (body acc x) as [acc1|e]; [|reflexivity].
  cbn [mbind result_bind]. apply IH.
Qed.

Lemma for_each_fmap {A B S} (h : A -> B) (body : S -> B -> result S) xs acc :
  for_each (h <$> xs) body acc = for_each xs (fun acc x => body acc (h x)) acc.
Proof.
  revert acc. induction xs as [|x xs IH]; intros acc; [reflexivity|].
  cbn [fmap list_fmap for_each]. destruct (body acc (h x)); [|reflexivity].
  cbn [mbind result_bind]. apply IH.
Qed.

(** The two nested loops are one loop over the pairs in row-major order. *)
Lemma for_each_row_major {S} (body : S -> nat * nat -> result S) nA xs acc :
  for_each xs
    (fun acc s => for_each (seq 0 nA) (fun acc a => body acc (s, a)) acc) acc
  = for_each (s ← xs; (fun a => (s, a)) <$> seq 0 nA) body acc.
Proof.
  revert acc. induction xs as [|s xs IH]; intros acc; [reflexivity|].
  cbn [for_each mbind list_bind]. rewrite for_each_app, for_each_fmap.
  destruct (for_each (seq 0 nA) _ acc) as [acc1|e]; [|reflexivity].
  cbn [mbind result_bind]. apply IH.
Qed.

(** A loop whose body fails only through a lookup [f x]: it fails with the
    error of the first [x] whose lookup fails. *)
Lemma for_each_first_error {A B S} (f : A -> result B) (g : S -> A -> B -> S) xs :
  forall acc e,
    for_each xs (fun acc x => y ← f x; Ok (g acc x y)) acc = Err e <->
    exists pre x post,
      xs = pre ++ x :: post /\
      Forall (fun y => exists t, f y = Ok t) pre /\
      f x = Err e.
Proof.
  induction xs as [|x xs IH]; intros acc e; cbn [for_each].
  - split; [discriminate|]. intros (pre & y & post & H & _).
    destruct pre; discriminate.
  - destruct (f x) as [t|e'] eqn:Hx; cbn [mbind result_bind].
    + rewrite IH. split.
      * intros (pre & y & post & -> & Hpre & Hy).
        exists (x :: pre), y, post. split; [reflexivity|].
        split; [constructor; eauto|exact Hy].
      * intros (pre & y & post & H & Hpre & Hy).
        destruct pre as [|z pre]; simpl in H; injection H as -> ->.
        -- congruence.
        -- exists pre, y, post. apply Forall_cons in Hpre as [_ Hpre]. auto.
    + split.
      * intros [= ->]. exists [], x, xs. auto.
      * intros (pre & y & post & H & Hpre & Hy).
        destruct pre as [|z pre]; simpl in H; injection H as -> ->.
        -- congruence.
        -- apply Forall_cons in Hpre as [[t Ht] _]. congruence.
Qed.

Lemma p_to_tensor_as_one_loop P nS nA :
  p_to_tensor P nS nA
  = (P_tensor ← for_each (row_major nS nA)
                  (fun T p => t ← first_outcome P p.1 p.2;
                              Ok (tensor_set T p.1 p.2 (transition_row t)))
                  (replicate nS (replicate nA (replicate 4 0%Q)));
     Ok {| prob := tensor_slice 0 P_tensor;
           s_next := np_map2 Qtruncate (tensor_slice 1 P_tensor);
           r := tensor_slice 2 P_tensor |}).
Proof.
  unfold p_to_tensor, row_major.
  rewrite <- (for_each_row_major
                (fun T p => t ← first_outcome P p.1 p.2;
                            Ok (tensor_set T p.1 p.2 (transition_row t)))).
  reflexivity.
Qed.

Lemma first_outcome_Ok_iff P s a t :
  first_outcome P s a = Ok t <-> exists rest, outcomes P s a = Some (t :: rest).
Proof.
  unfold first_outcome, outcomes. destruct (P !! s) as [Ps|]; simpl.
  - destruct (Ps !! a) as [[|t' rest]|]; simpl.
    + split; [discriminate|intros [? ?]; discriminate].
    + split; [intros [= ->]; eauto|intros [? [= -> _]]; reflexivity].
    + split; [discriminate|intros [? ?]; discriminate].
  - split; [discriminate|intros [? ?]; discriminate].
Qed.

Lemma first_outcome_Err_iff P s a e :
  first_outcome P s a = Err e <->
  (outcomes P s a = None /\ e = KeyError) \/
  (outcomes P s a = Some [] /\ e = IndexError).
Proof.
  unfold first_outcome, outcomes. destruct (P !! s) as [Ps|]; simpl.
  - destruct (Ps !! a) as [[|t' rest]|]; simpl.
    + split; [intros [= <-]; auto|intros [[? _]|[_ ->]]; [discriminate|reflexivity]].
    + split; [discriminate|intros [[? _]|[? _]]; discriminate].
    + split; [intros [= <-]; auto|intros [[_ ->]|[? _]]; [reflexivity|discriminate]].
  - split; [intros [= <-]; auto|intros [[_ ->]|[? _]]; [reflexivity|discriminate]].
Qed.

Lemma elem_of_row_major nS nA s a :
  (s, a) ∈ row_major nS nA <-> s < nS /\ a < nA.
Proof.
  unfold row_major. rewrite list_elem_of_bind. split.
  - intros (s' & Ha & Hs). apply list_elem_of_fmap in Ha as (a' & [= -> ->] & Ha).
    apply elem_of_seq in Hs, Ha. lia.
  - intros [Hs Ha]. exists s. split.
    + apply list_elem_of_fmap. exists a. split; [reflexivity|].
      apply elem_of_seq. lia.
    + apply elem_of_seq. lia.
Qed.

Lemma dense_has_shape {A} nS nA (g : nat -> nat -> A) :
  has_shape nS nA (dense nS nA g).
Proof.
  unfold has_shape, dense. split.
  - rewrite length_fmap, length_seq. reflexivity.
  - apply Forall_fmap, Forall_forall. intros s _. simpl.
    rewrite length_fmap, length_seq. reflexivity.
Qed.

(** X1.  The adapter succeeds exactly when every pair (s, a) with s < nS
    and a < nA has a nonempty list of outcomes; its three arrays then hold
    the probability, next state and reward of the first outcome of each
    pair, and each has the shape (nS, nA). *)
Theorem p_to_tensor_succeeds_iff P nS nA T :
  p_to_tensor P nS nA = Ok T <->
  (forall s a, s < nS -> a < nA ->
     exists t rest, outcomes P s a = Some (t :: rest)) /\
  T = {| prob := dense nS nA (fun s a => probability (first_of P s a));
         s_next := dense nS nA (fun s a => nextstate (first_of P s a));
         r := dense nS nA (fun s a => reward (first_of P s a)) |} /\
  has_shape nS nA (prob T) /\ has_shape nS nA (s_next T) /\
  has_shape nS nA (r T).
Proof.
  split.
  - intros H.
    assert (Hall : forall s a, s < nS -> a < nA ->
              exists t rest, outcomes P s a = Some (t :: rest)).
    { intros s a Hs Ha.
      destruct (first_outcome P s a) as [t|e] eqn:Hf.
      - apply first_outcome_Ok_iff in Hf as [rest Hr]. eauto.
      - exfalso. rewrite p_to_tensor_as_one_loop in H.
        destruct (for_each (row_major nS nA) _ _) as [PT|e'] eqn:Hloop;
          [|discriminate].
        assert (Hin : (s, a) ∈ row_major nS nA) by (apply elem_of_row_major; lia).
        apply list_elem_of_split in Hin as (pre & post & Hsplit).
        rewrite Hsplit, for_each_app in Hloop.
        destruct (for_each pre _ _) as [acc|e'']; [|discriminate].
        cbn [mbind result_bind for_each fst snd] in Hloop.
        rewrite Hf in Hloop. discriminate. }
    split; [exact Hall|].
    rewrite p_to_tensor_dense in H.
    + injection H as <-. cbn [prob s_next r].
      repeat split; try apply dense_has_shape.
    + intros s a Hs Ha. destruct (Hall s a Hs Ha) as (t & rest & Ho).
      exists t. now apply first_outcome_cons with rest.
  - intros (Hall & -> & _). apply p_to_tensor_dense.
    intros s a Hs Ha. destruct (Hall s a Hs Ha) as (t & rest & Ho).
    exists t. now apply first_outcome_cons with rest.
Qed.

(** X2.  The adapter fails exactly when some pair has no outcome to read,
    and then with the exception of the first such pair in row-major order:
    KeyError when the state or the action is not a key, IndexError when the
    list of outcomes is empty. *)
Theorem p_to_tensor_fails_iff P nS nA e :
  p_to_tensor P nS nA = Err e <->
  exists pre s a post,
    row_major nS nA = pre ++ (s, a) :: post /\
    Forall (fun p => exists t rest, outcomes P p.1 p.2 = Some (t :: rest)) pre /\
    ((outcomes P s a = None /\ e = KeyError) \/
     (outcomes P s a = Some [] /\ e = IndexError)).
Proof.
  rewrite p_to_tensor_as_one_loop.
  pose proof (for_each_first_error
                (fun p : nat * nat => first_outcome P p.1 p.2)
                (fun T p t => tensor_set T p.1 p.2 (transition_row t))
                (row_major nS nA)
                (replicate nS (replicate nA (replicate 4 0%Q))) e) as Hloop.
  split.
  - intros H.
    destruct (for_each (row_major nS nA) _ _) as [PT|e'] eqn:Hl; [discriminate|].
    injection H as ->.
    apply proj1 in Hloop. destruct (Hloop eq_refl) as (pre & [s a] & post & Hs & Hpre & Hx).
    exists pre, s, a, post. split; [exact Hs|]. split.
    + eapply Forall_impl; [exact Hpre|]. intros p [t Ht].
      apply first_outcome_Ok_iff in Ht as [rest Hr]. eauto.
    + now apply first_outcome_Err_iff.
  - intros (pre & s & a & post & Hs & Hpre & Hx).
    apply proj2 in Hloop. rewrite Hloop; [reflexivity|].
    exists pre, (s, a), post. split; [exact Hs|]. split.
    + eapply Forall_impl; [exact Hpre|]. intros p (t & rest & Ho).
      exists t. now apply first_outcome_Ok_iff; eauto.
    + now apply first_outcome_Err_iff.
Qed.

(** ** The policy that improvement returns *)

Lemma np_binop2_shape {A B C} (f : A -> B -> C) nS nA xs ys :
  has_shape nS nA xs -> has_shape nS nA ys ->
  has_shape nS nA (np_binop2 f xs ys).
Proof.
  intros [Hx Hxs] [Hy Hys]. unfold np_binop2. split.
  - rewrite length_zip_with. lia.
  - apply Forall_lookup. intros i row Hrow.
    apply lookup_zip_with_Some in Hrow as (x & y & -> & Hxi & Hyi).
    rewrite Forall_lookup in Hxs. rewrite Forall_lookup in Hys.
    rewrite length_zip_with, (Hxs i x Hxi), (Hys i y Hyi). lia.
Qed.

Lemma np_map2_shape {A B} (f : A -> B) nS nA xs :
  has_shape nS nA xs -> has_shape nS nA (np_map2 f xs).
Proof.
  intros [Hx Hxs]. unfold np_map2. split.
  - now rewrite length_fmap.
  - apply Forall_fmap. eapply Forall_impl; [exact Hxs|].
    intros row Hrow. simpl. now rewrite length_fmap.
Qed.

Lemma q_values_shape T nS nA gamma v Qsa :
  has_shape nS nA (prob T) -> has_shape nS nA (s_next T) ->
  has_shape nS nA (r T) ->
  q_values T gamma v = Ok Qsa -> has_shape nS nA Qsa.
Proof.
  intros Hp Hs Hr H. unfold q_values in H.
  apply result_bind_Ok_inv in H as (vs & Hvs & H). injection H as <-.
  apply np_binop2_shape; [exact Hp|].
  apply np_binop2_shape; [exact Hr|]. apply np_map2_shape.
  apply map_result_lookup in Hvs as [Hlen Hall]. destruct Hs as [Hs1 Hs2].
  split; [lia|]. apply Forall_lookup. intros i row Hrow.
  destruct (lookup_lt_is_Some_2 (s_next T) i) as [srow Hsrow].
  { apply lookup_lt_Some in Hrow. lia. }
  destruct (Hall i srow Hsrow) as (row' & Hrow' & Htake).
  rewrite Hrow in Hrow'. injection Hrow' as <-.
  apply map_result_length in Htake. rewrite Htake.
  rewrite Forall_lookup in Hs2. eauto.
Qed.

Lemma lowest_maximizers_policy nS nA Qsa best :
  has_shape nS nA Qsa -> lowest_maximizers Qsa best -> is_policy nS nA best.
Proof.
  intros [Hlen Hrows] [Hb Hall]. split; [lia|].
  apply Forall_lookup. intros s z Hz.
  destruct (lookup_lt_is_Some_2 Qsa s) as [row Hrow].
  { apply lookup_lt_Some in Hz. lia. }
  destruct (Hall s row Hrow) as (a & Ha & qa & Hqa & _).
  rewrite Hz in Ha. injection Ha as ->.
  apply lookup_lt_Some in Hqa. rewrite Forall_lookup in Hrows.
  rewrite (Hrows s row Hrow) in Hqa. lia.
Qed.

Lemma greedy_policy P nS nA gamma v best :
  greedy P nS nA gamma v = Ok best -> is_policy nS nA best /\ 0 < nA.
Proof.
  intros H. split.
  - destruct (greedy_lowest_maximizers _ _ _ _ _ _ H)
      as (T & Qsa & HT & HQ & Hl).
    apply p_to_tensor_succeeds_iff in HT as (_ & _ & Hp & Hs & Hr).
    eapply lowest_maximizers_policy; [|exact Hl].
    eapply q_values_shape; eauto.
  - unfold greedy in H.
    apply result_bind_Ok_inv in H as (T & _ & H).
    apply result_bind_Ok_inv in H as (Qsa & _ & H).
    unfold np_argmax_axis1 in H. destruct (nA =? 0) eqn:E; [discriminate|].
    apply Nat.eqb_neq in E. lia.
Qed.

Lemma policy_improvement_reads_value_function P nS nA vloc ploc gamma w l w' :
  policy_improvement P nS nA vloc ploc gamma w = Ret l w' ->
  exists v, farrs w !! vloc = Some v.
Proof.
  unfold policy_improvement. intros H.
  apply bind_Ret_inv in H as (l0 & w1 & H0 & H). injection H0 as <- <-.
  apply bind_Ret_inv in H as (T & w2 & HT & H).
  apply lift_Ret_inv in HT as [_ ->].
  apply bind_Ret_inv in H as (v & w3 & Hv & _).
  unfold get_float in Hv. cbn [farrs] in Hv.
  destruct (farrs w !! vloc) as [v'|]; [eauto|discriminate].
Qed.

(** X3.  Whenever [policy_improvement] returns, whatever the model and the
    value function, the array it returns is a policy: one action for each
    of the [nS] states, each in [0, nA). *)
Theorem policy_improvement_returns_a_policy
  P nS nA vloc ploc gamma w new_policy w' :
  policy_improvement P nS nA vloc ploc gamma w = Ret new_policy w' ->
  exists best, iarrs w' !! new_policy = Some best /\ is_policy nS nA best.
Proof.
  intros H.
  destruct (policy_improvement_reads_value_function _ _ _ _ _ _ _ _ _ H)
    as [v Hv].
  destruct (policy_improvement_returns _ _ _ _ _ _ _ _ _ _ Hv H)
    as (best & Hg & -> & ->).
  exists best. split; [apply new_policy_lookup|].
  now apply greedy_policy in Hg.
Qed.

Lemma policy_improvement_returns_a_policy_witness :
  policy_improvement two_state 2 2 0 0 (1 # 2) (world_with [0; 0]%Q [0; 0]%Z)
    = Ret 2 {| farrs := [[0; 0]%Q]; iarrs := [[0; 0]; [0; 0]; [0; 0]]%Z;
               stdout := [[0; 0]%Z] |} /\
  exists best,
    iarrs {| farrs := [[0; 0]%Q]; iarrs := [[0; 0]; [0; 0]; [0; 0]]%Z;
             stdout := [[0; 0]%Z] |} !! 2 = Some best /\
    is_policy 2 2 best.
Proof.
  split; [vm_compute; reflexivity|].
  apply (policy_improvement_returns_a_policy two_state 2 2 0 0 (1 # 2)
           (world_with [0; 0]%Q [0; 0]%Z)).
  vm_compute. reflexivity.
Defined.

(** ** Empty state and action spaces *)

Lemma p_to_tensor_no_actions P nS :
  p_to_tensor P nS 0
  = Ok {| prob := replicate nS []; s_next := replicate nS [];
          r := replicate nS [] |}.
Proof.
  rewrite p_to_tensor_dense by (intros s a _ Ha; lia).
  unfold dense. cbn [seq fmap list_fmap].
  assert (E : forall A, (fun _ : nat => @nil A) <$> seq 0 nS = replicate nS [])
    by (intros A; generalize 0; induction nS as [|n IH]; intros k;
        [reflexivity|simpl; f_equal; apply IH]).
  now rewrite !E.
Qed.


Lemma q_values_no_actions nS gamma v :
  q_values {| prob := replicate nS []; s_next := replicate nS [];
              r := replicate nS [] |} gamma v
  = Ok (replicate nS []).
Proof.
  unfold q_values. cbn [prob s_next r].
  assert (E : map_result (np_take v) (replicate nS []) = Ok (replicate nS []))
    by (induction nS as [|n IH]; [reflexivity|];
        cbn [replicate map_result]; rewrite IH; reflexivity).
  rewrite E. cbn [mbind result_bind]. f_equal.
  unfold np_binop2, np_map2. rewrite fmap_replicate. simpl.
  rewrite !zip_with_replicate. reflexivity.
Qed.

(** X4.  With no action ([nA = 0]) the adapter reads nothing and succeeds,
    and the reductions over the actions fail: [policy_improvement], and
    [value_iteration] on its first sweep, raise ValueError whatever the
    model. *)
Theorem no_actions_raises_ValueError P nS gamma :
  (forall vloc ploc w v,
     farrs w !! vloc = Some v ->
     policy_improvement P nS 0 vloc ploc gamma w = Raise ValueError) /\
  (forall fuel tol w,
     value_iteration (S fuel) P nS 0 gamma tol w = Raise ValueError).
Proof.
  split.
  - intros vloc ploc w v Hv.
    rewrite (policy_improvement_run _ _ _ _ _ _ _ v Hv). unfold greedy.
    rewrite p_to_tensor_no_actions. cbn [mbind result_bind].
    rewrite q_values_no_actions. reflexivity.
  - intros fuel tol w. unfold value_iteration.
    rewrite bind_run. cbn [new_float]. rewrite bind_run. cbn [new_int].
    rewrite bind_run, p_to_tensor_no_actions. cbn [lift].
    rewrite bind_run. cbn [vi_loop]. rewrite bind_run.
    rewrite (vi_sweep_run _ _ _ _ _ _ (np_zeros nS))
      by (cbn [farrs]; apply (new_float_lookup w)).
    unfold vi_step. rewrite q_values_no_actions. reflexivity.
Qed.

Lemma no_actions_raises_ValueError_witness :
  farrs (world_with [0%Q] [0%Z]) !! 0 = Some [0%Q] /\
  policy_improvement (self_loop 1) 1 0 0 0 (1 # 2) (world_with [0%Q] [0%Z])
    = Raise ValueError.
Proof.
  split; [reflexivity|].
  apply (proj1 (no_actions_raises_ValueError (self_loop 1) 1 (1 # 2))
           0 0 (world_with [0%Q] [0%Z]) [0%Q]).
  reflexivity.
Defined.



(** ** The policy indexes the flattened arrays *)

Lemma concat_entry {A} nA (xs : list (list A)) :
  Forall (fun row => length row = nA) xs ->
  forall q m, m < nA -> concat xs !! (q * nA + m) = entry xs q m.
Proof.
  induction xs as [|row xs IH]; intros Hrows q m Hm; [reflexivity|].
  apply Forall_cons in Hrows as [Hrow Hrows]. cbn [concat].
  destruct q as [|q].
  - rewrite lookup_app_l by (simpl; lia). reflexivity.
  - rewrite lookup_app_r by (simpl; lia).
    replace (S q * nA + m - length row) with (q * nA + m) by (simpl; lia).
    rewrite IH by assumption. reflexivity.
Qed.

Lemma concat_shape_length {A} nS nA (xs : list (list A)) :
  has_shape nS nA xs -> length (concat xs) = nS * nA.
Proof.
  intros [Hlen Hrows]. subst nS.
  induction xs as [|row xs IH]; [reflexivity|].
  apply Forall_cons in Hrows as [Hrow Hrows]. cbn [concat length].
  rewrite length_app, IH by assumption. lia.
Qed.

(** Reading the flattened array at a nonnegative position [z]: the entry
    in row [z / nA] and column [z mod nA]. *)
Lemma np_index_concat {A} nS nA (xs : list (list A)) z :
  has_shape nS nA xs -> 0 < nA -> (0 <= z)%Z ->
  np_index (concat xs) z
  = from_option IndexError
      (entry xs (Z.to_nat z / nA) (Z.to_nat z mod nA)).
Proof.
  intros [Hlen Hrows] HnA Hz. unfold np_index.
  destruct (0 <=? z)%Z eqn:E; [|apply Z.leb_gt in E; lia].
  rewrite <- (concat_entry nA xs Hrows) by (apply Nat.mod_upper_bound; lia).
  do 2 f_equal. rewrite Nat.mul_comm. apply Nat.div_mod. lia.
Qed.

Lemma np_index_error {A} (xs : list A) z e : np_index xs z = Err e -> e = IndexError.
Proof.
  unfold np_index. repeat case_match; unfold from_option;
    repeat case_match; congruence.
Qed.

Lemma np_index_out_of_range {A} (xs : list A) z :
  ~ (- Z.of_nat (length xs) <= z < Z.of_nat (length xs))%Z ->
  np_index xs z = Err IndexError.
Proof.
  intros Hz. unfold np_index.
  destruct (0 <=? z)%Z eqn:E1.
  - apply Z.leb_le in E1. rewrite lookup_ge_None_2 by lia. reflexivity.
  - apply Z.leb_gt in E1. destruct (- Z.of_nat (length xs) <=? z)%Z eqn:E2.
    + apply Z.leb_le in E2. lia.
    + reflexivity.
Qed.

Lemma map_result_error {A B} (f : A -> result B) xs e :
  (forall x e', f x = Err e' -> e' = e) ->
  (exists x, x ∈ xs /\ exists e', f x = Err e') ->
  map_result f xs = Err e.
Proof.
  intros Hf. induction xs as [|x xs IH]; intros (y & Hy & e' & He).
  - apply elem_of_nil in Hy. contradiction.
  - cbn [map_result]. destruct (f x) as [b|e1] eqn:Hx.
    + cbn [mbind result_bind]. rewrite IH; [reflexivity|].
      apply elem_of_cons in Hy as [->|Hy]; [congruence|eauto].
    + cbn [mbind result_bind]. f_equal. eauto.
Qed.

(** X6.  [policy_evaluation] does not compare the actions of the policy
    with [nA]: for arrays of shape (nS, nA) and a policy of [nS] entries,
    the entry [a] at state [s] selects position [nA * s + a] of the
    flattened arrays, that is row [(nA * s + a) / nA] and column
    [(nA * s + a) mod nA], as long as that position is in [0, nS * nA).
    An action [nA + a'] at a state that is not the last one is read as
    action [a'] of the next state. *)
Theorem policy_columns_read_flat_positions T nS nA pol :
  0 < nA ->
  has_shape nS nA (prob T) -> has_shape nS nA (s_next T) ->
  has_shape nS nA (r T) ->
  length pol = nS ->
  (forall s a, pol !! s = Some a ->
     (0 <= Z.of_nat nA * Z.of_nat s + a < Z.of_nat (nS * nA))%Z) ->
  exists prob_pi s_next_pi r_pi,
    policy_columns T nS nA pol = Ok (prob_pi, s_next_pi, r_pi) /\
    forall s a, pol !! s = Some a ->
      let z := Z.to_nat (Z.of_nat nA * Z.of_nat s + a) in
      prob_pi !! s = entry (prob T) (z / nA) (z mod nA) /\
      s_next_pi !! s = entry (s_next T) (z / nA) (z mod nA) /\
      r_pi !! s = entry (r T) (z / nA) (z mod nA).
Proof.
  intros HnA Hp Hs Hr Hlen Hrange. unfold policy_columns.
  rewrite take_indices_dense by exact Hlen. cbn [mbind result_bind].
  set (idx := (fun s => (Z.of_nat nA * Z.of_nat s + nth s pol 0)%Z) <$> seq 0 nS).
  assert (Hidx : forall s a, pol !! s = Some a ->
            idx !! s = Some (Z.of_nat nA * Z.of_nat s + a)%Z).
  { intros s a Ha. unfold idx.
    rewrite list_lookup_fmap, lookup_seq_lt
      by (apply lookup_lt_Some in Ha; lia).
    simpl. now rewrite (nth_lookup_Some _ _ _ _ Ha). }
  assert (Htake : forall A (xs : list (list A)), has_shape nS nA xs ->
            exists col, np_take (concat xs) idx = Ok col /\
              forall s a, pol !! s = Some a ->
                let z := Z.to_nat (Z.of_nat nA * Z.of_nat s + a) in
                col !! s = entry xs (z / nA) (z mod nA)).
  { intros A xs Hxs.
    destruct (map_result_total (np_index (concat xs)) idx) as [col Hcol].
    - intros z Hz. unfold idx in Hz.
      apply list_elem_of_fmap in Hz as (s & -> & Hs'). apply elem_of_seq in Hs'.
      destruct (lookup_lt_is_Some_2 pol s ltac:(lia)) as [a Ha].
      rewrite (nth_lookup_Some _ _ _ _ Ha). specialize (Hrange s a Ha).
      apply np_index_in_range. rewrite (concat_shape_length nS nA) by exact Hxs.
      lia.
    - exists col. split; [exact Hcol|]. intros s a Ha z.
      apply map_result_lookup in Hcol as [_ Hall].
      destruct (Hall s _ (Hidx s a Ha)) as (y & Hy & Hread).
      rewrite (np_index_concat nS nA) in Hread
        by (try assumption; specialize (Hrange s a Ha); lia).
      fold z in Hread. rewrite Hy.
      destruct (entry xs (z / nA) (z mod nA)); [|discriminate].
      now injection Hread as ->. }
  destruct (Htake _ _ Hp) as (pp & Hpp & Hpp').
  destruct (Htake _ _ Hs) as (sn & Hsn & Hsn').
  destruct (Htake _ _ Hr) as (rp & Hrp & Hrp').
  unfold np_take in *. rewrite Hpp, Hsn, Hrp. cbn [mbind result_bind].
  exists pp, sn, rp. split; [reflexivity|]. intros s a Ha. auto.
Qed.

Lemma policy_columns_read_flat_positions_witness :
  let T := {| prob := [[1; 1]; [1; 1]]%Q; s_next := [[0; 1]; [1; 1]]%Z;
              r := [[1; 0]; [5 # 2; 0]]%Q |} in
  0 < 2 /\
  has_shape 2 2 (prob T) /\ has_shape 2 2 (s_next T) /\ has_shape 2 2 (r T) /\
  length [2; 0]%Z = 2 /\
  (forall s a, [2; 0]%Z !! s = Some a ->
     (0 <= Z.of_nat 2 * Z.of_nat s + a < Z.of_nat (2 * 2))%Z) /\
  exists prob_pi s_next_pi r_pi,
    policy_columns T 2 2 [2; 0]%Z = Ok (prob_pi, s_next_pi, r_pi) /\
    forall s a, [2; 0]%Z !! s = Some a ->
      let z := Z.to_nat (Z.of_nat 2 * Z.of_nat s + a) in
      prob_pi !! s = entry (prob T) (z / 2) (z mod 2) /\
      s_next_pi !! s = entry (s_next T) (z / 2) (z mod 2) /\
      r_pi !! s = entry (r T) (z / 2) (z mod 2).
Proof.
  intros T.
  assert (Hshape : forall A (x y z t : A), has_shape 2 2 [[x; y]; [z; t]])
    by (intros; split; [reflexivity|repeat constructor]).
  assert (Hrange : forall s a, [2; 0]%Z !! s = Some a ->
            (0 <= Z.of_nat 2 * Z.of_nat s + a < Z.of_nat (2 * 2))%Z).
  { intros [|[|s]] a Ha; simpl in Ha; try discriminate;
      injection Ha as <-; lia. }
  split; [lia|]. split; [apply Hshape|]. split; [apply Hshape|].
  split; [apply Hshape|]. split; [reflexivity|]. split; [exact Hrange|].
  apply (policy_columns_read_flat_positions T 2 2 [2; 0]%Z);
    try apply Hshape; [lia|reflexivity|exact Hrange].
Defined.

(** The policy (2, 0) on the two-state model: state 0 is evaluated with
    the outcome of the pair (1, 0). *)
Example policy_columns_action_beyond_nA :
  (T ← p_to_tensor two_state 2 2; policy_columns T 2 2 [2; 0]%Z)
  = Ok ([1; 1]%Q, [1; 1]%Z, [5 # 2; 5 # 2]%Q).
Proof. vm_compute. reflexivity. Qed.

(** X7.  When the adapter succeeds and some entry [a] of a policy of [nS]
    entries gives a position [nA * s + a] outside [-nS * nA, nS * nA),
    [policy_evaluation] raises IndexError before its first sweep. *)
Theorem policy_evaluation_position_out_of_range
  fuel P nS nA policy gamma tol w pol T s a :
  p_to_tensor P nS nA = Ok T ->
  iarrs w !! policy = Some pol ->
  length pol = nS ->
  pol !! s = Some a ->
  ~ (- Z.of_nat (nS * nA) <= Z.of_nat nA * Z.of_nat s + a < Z.of_nat (nS * nA))%Z ->
  policy_evaluation fuel P nS nA policy gamma tol w = Raise IndexError.
Proof.
  intros HT Hw Hlen Ha Hout.
  pose proof (policy_evaluation_run fuel P nS nA policy gamma tol w pol Hw) as Hrun.
  replace (evaluation_values fuel P nS nA pol gamma tol)
    with (@Err (option (list Q)) IndexError) in Hrun; [exact Hrun|].
  symmetry. unfold evaluation_values. rewrite HT. cbn [mbind result_bind].
  apply p_to_tensor_succeeds_iff in HT as (_ & _ & Hp & _).
  unfold policy_columns. rewrite take_indices_dense by exact Hlen.
  cbn [mbind result_bind].
  match goal with
  | |- context [np_take (concat (prob T)) ?idx] =>
      assert (Hbad : np_take (concat (prob T)) idx = Err IndexError)
  end; [|rewrite Hbad; reflexivity].
  apply map_result_error.
  - intros z e. apply np_index_error.
  - exists (Z.of_nat nA * Z.of_nat s + a)%Z. split.
    + apply list_elem_of_fmap. exists s. split.
      * now rewrite (nth_lookup_Some _ _ _ _ Ha).
      * apply elem_of_seq. apply lookup_lt_Some in Ha. lia.
    + exists IndexError. apply np_index_out_of_range.
      now rewrite (concat_shape_length nS nA) by exact Hp.
Qed.

Lemma policy_evaluation_position_out_of_range_witness :
  p_to_tensor two_state 2 2
    = Ok {| prob := [[1; 1]; [1; 1]]%Q; s_next := [[0; 1]; [1; 1]]%Z;
            r := [[1; 0]; [5 # 2; 0]]%Q |} /\
  iarrs (world_with_policy [0; 2]%Z) !! 0 = Some [0; 2]%Z /\
  length [0; 2]%Z = 2 /\
  [0; 2]%Z !! 1 = Some 2%Z /\
  ~ (- Z.of_nat (2 * 2) <= Z.of_nat 2 * Z.of_nat 1 + 2 < Z.of_nat (2 * 2))%Z /\
  policy_evaluation 5 two_state 2 2 0 (1 # 2) (1 # 1000)
    (world_with_policy [0; 2]%Z) = Raise IndexError.
Proof.
  assert (HT : p_to_tensor two_state 2 2
    = Ok {| prob := [[1; 1]; [1; 1]]%Q; s_next := [[0; 1]; [1; 1]]%Z;
            r := [[1; 0]; [5 # 2; 0]]%Q |}) by (vm_compute; reflexivity).
  split; [exact HT|]. split; [reflexivity|]. split; [reflexivity|].
  split; [reflexivity|]. split; [lia|].
  apply (policy_evaluation_position_out_of_range 5 two_state 2 2 0 (1 # 2)
           (1 # 1000) (world_with_policy [0; 2]%Z) [0; 2]%Z _ 1 2%Z HT);
    [reflexivity|reflexivity|reflexivity|lia].
Defined.

(** ** What the loops return, for every model *)

Lemma iterates_succ_r step k v :
  iterates step (S k) v = (y ← step v; iterates step k y).
Proof.
  induction k as [|k IH].
  - cbn [iterates mbind result_bind]. destruct (step v); reflexivity.
  - change (iterates step (S (S k)) v)
      with (x ← iterates step (S k) v; step x).
    rewrite IH. destruct (step v) as [y|e]; reflexivity.
Qed.

Lemma leaves_at_shift step tol v0 y k x :
  step v0 = Ok y -> test_fails tol v0 y ->
  leaves_at step tol y k x <-> leaves_at step tol v0 (S k) x.
Proof.
  intros Hy Hfail. unfold leaves_at. split.
  - intros (v & Hv & Hx & Hpass & Hbefore). exists v.
    rewrite iterates_succ_r, Hy. cbn [mbind result_bind].
    split; [exact Hv|]. split; [exact Hx|]. split; [exact Hpass|].
    intros [|j] Hj.
    + exists v0, y. auto.
    + rewrite iterates_succ_r, Hy. cbn [mbind result_bind].
      apply Hbefore. lia.
  - intros (v & Hv & Hx & Hpass & Hbefore). exists v.
    rewrite iterates_succ_r, Hy in Hv. cbn [mbind result_bind] in Hv.
    split; [exact Hv|]. split; [exact Hx|]. split; [exact Hpass|].
    intros j Hj. specialize (Hbefore (S j) ltac:(lia)).
    rewrite iterates_succ_r, Hy in Hbefore. exact Hbefore.
Qed.

Lemma fixpoint_loop_leaves_iff step tol fuel :
  forall v0 x,
    fixpoint_loop fuel step tol v0 = Ok (Some x) <->
    exists k, k < fuel /\ leaves_at step tol v0 k x.
Proof.
  induction fuel as [|n IH]; intros v0 x.
  - split; [discriminate|]. intros (k & Hk & _). lia.
  - cbn [fixpoint_loop]. split.
    + intros H. apply result_bind_Ok_inv in H as (y & Hy & H).
      apply result_bind_Ok_inv in H as (d & Hd & H).
      destruct (Qltb d tol) eqn:E.
      * injection H as <-. exists 0. split; [lia|]. exists v0.
        split; [reflexivity|]. split; [exact Hy|].
        split; [exists d; auto|]. intros j Hj. lia.
      * apply IH in H as (k & Hk & Hl). exists (S k). split; [lia|].
        apply (leaves_at_shift step tol v0 y); [exact Hy| |exact Hl].
        exists d. auto.
    + intros (k & Hk & Hl). destruct k as [|k].
      * destruct Hl as (v & Hv & Hx & (d & Hd & Hlt) & _).
        injection Hv as <-. rewrite Hx. cbn [mbind result_bind].
        rewrite Hd. cbn [mbind result_bind]. rewrite Hlt. reflexivity.
      * pose proof Hl as (v & _ & _ & _ & Hbefore).
        destruct (Hbefore 0 ltac:(lia)) as (v0' & y & Hv0 & Hy & d & Hd & Hge).
        injection Hv0 as <-. rewrite Hy. cbn [mbind result_bind].
        rewrite Hd. cbn [mbind result_bind]. rewrite Hge.
        apply IH. exists k. split; [lia|].
        apply (leaves_at_shift step tol v0 y); [exact Hy| |exact Hl].
        exists d. auto.
Qed.

(** X8.  When [value_iteration] returns, for any model: the adapter has
    succeeded with some arrays [T]; with V_0 = 0 and V_(j+1) the sweep of
    V_j, there is a k below the number of sweeps made such that the test
    [norm(V_k - V_(k+1)) < tol] passes and has failed for every j < k; and
    the policy returned is the greedy policy of V_(k+1). *)
Theorem value_iteration_returns_greedy_of_first_close_iterate
  fuel P nS nA gamma tol w vf pol w' :
  value_iteration fuel P nS nA gamma tol w = Ret (vf, pol) w' ->
  exists T k x best,
    p_to_tensor P nS nA = Ok T /\
    k < fuel /\
    leaves_at (vi_step T nS nA gamma) tol (np_zeros nS) k x /\
    greedy P nS nA gamma x = Ok best /\
    iarrs w' !! pol = Some best.
Proof.
  intros H.
  apply value_iteration_returns in H as (T & x & best & HT & Hx & Hg & Hp).
  apply fixpoint_loop_leaves_iff in Hx as (k & Hk & Hl).
  exists T, k, x, best. auto.
Qed.

Lemma value_iteration_returns_greedy_of_first_close_iterate_witness :
  value_iteration 1 (self_loop (-1)) 1 1 (1 # 2) (1 # 1000) empty_world
    = Ret (0, 2) {| farrs := [[0]; [0]]%Q; iarrs := [[0]; [0]; [0]]%Z;
                    stdout := [[0%Z]] |} /\
  exists T k x best,
    p_to_tensor (self_loop (-1)) 1 1 = Ok T /\
    k < 1 /\
    leaves_at (vi_step T 1 1 (1 # 2)) (1 # 1000) (np_zeros 1) k x /\
    greedy (self_loop (-1)) 1 1 (1 # 2) x = Ok best /\
    iarrs {| farrs := [[0]; [0]]%Q; iarrs := [[0]; [0]; [0]]%Z;
             stdout := [[0%Z]] |} !! 2 = Some best.
Proof.
  split; [vm_compute; reflexivity|].
  apply (value_iteration_returns_greedy_of_first_close_iterate
           1 (self_loop (-1)) 1 1 (1 # 2) (1 # 1000) empty_world 0).
  vm_compute. reflexivity.
Defined.

(** X9.  When [policy_evaluation] returns, for any model and any policy in
    the store: the adapter has succeeded, the three columns selected by
    the policy are [cols], and with V_0 = 0 and V_(j+1) the backup of V_j
    on those columns the array returned is V_(k+1) for the first k, below
    the number of sweeps made, with [norm(V_k - V_(k+1)) < tol]. *)
Theorem policy_evaluation_returns_first_close_iterate_of_columns
  fuel P nS nA policy gamma tol w pol V_new w' :
  iarrs w !! policy = Some pol ->
  policy_evaluation fuel P nS nA policy gamma tol w = Ret V_new w' ->
  exists T cols k x,
    p_to_tensor P nS nA = Ok T /\
    policy_columns T nS nA pol = Ok cols /\
    k < fuel /\
    leaves_at (pe_backup cols.1.1 cols.1.2 cols.2 gamma) tol (np_zeros nS) k x /\
    farrs w' !! V_new = Some x.
Proof.
  intros Hw H.
  pose proof (policy_evaluation_run fuel P nS nA policy gamma tol w pol Hw) as Hrun.
  destruct (evaluation_values fuel P nS nA pol gamma tol) as [[x|]|e] eqn:He;
    [|congruence|congruence].
  destruct Hrun as (l & w1 & Hret & Hx). rewrite H in Hret.
  injection Hret as <- <-.
  unfold evaluation_values in He.
  apply result_bind_Ok_inv in He as (T & HT & He).
  apply result_bind_Ok_inv in He as (cols & Hc & He).
  apply fixpoint_loop_leaves_iff in He as (k & Hk & Hl).
  exists T, cols, k, x. auto.
Qed.

Lemma policy_evaluation_returns_first_close_iterate_of_columns_witness :
  iarrs (world_with_policy [0%Z]) !! 0 = Some [0%Z] /\
  policy_evaluation 1 (self_loop 0) 1 1 0 (3 # 2) (1 # 1000)
    (world_with_policy [0%Z])
    = Ret 2 {| farrs := [[0]; [0]; [0 # 2]]%Q; iarrs := [[0%Z]];
               stdout := [] |} /\
  exists T cols k x,
    p_to_tensor (self_loop 0) 1 1 = Ok T /\
    policy_columns T 1 1 [0%Z] = Ok cols /\
    k < 1 /\
    leaves_at (pe_backup cols.1.1 cols.1.2 cols.2 (3 # 2)) (1 # 1000)
      (np_zeros 1) k x /\
    farrs {| farrs := [[0]; [0]; [0 # 2]]%Q; iarrs := [[0%Z]];
             stdout := [] |} !! 2 = Some x.
Proof.
  split; [reflexivity|]. split; [vm_compute; reflexivity|].
  apply (policy_evaluation_returns_first_close_iterate_of_columns
           1 (self_loop 0) 1 1 0 (3 # 2) (1 # 1000)
           (world_with_policy [0%Z]) [0%Z]).
  - reflexivity.
  - vm_compute. reflexivity.
Defined.

(** ** What is printed *)

Lemma silent_ret {A} (a : A) : silent (mret a).
Proof. intros w a' w' [= _ <-]. reflexivity. Qed.

Lemma silent_bind {A B} (m : M A) (k : A -> M B) :
  silent m -> (forall a, silent (k a)) -> silent (m ≫= k).
Proof.
  intros Hm Hk w b w2 H. apply bind_Ret_inv in H as (a & w1 & H1 & H2).
  rewrite (Hk _ _ _ _ H2). eapply Hm, H1.
Qed.

Lemma silent_lift {A} (x : result A) : silent (lift x).
Proof. intros w a w' H. apply lift_Ret_inv in H as [_ ->]. reflexivity. Qed.

Lemma silent_looping {A} : silent (@looping A).
Proof. intros w a w'; discriminate. Qed.

Lemma silent_new_float xs : silent (new_float xs).
Proof. intros w a w' [= _ <-]. reflexivity. Qed.

Lemma silent_new_int xs : silent (new_int xs).
Proof. intros w a w' [= _ <-]. reflexivity. Qed.

Lemma silent_get_float l : silent (get_float l).
Proof.
  intros w a w'. unfold get_float. case_match; [|discriminate].
  intros [= _ <-]. reflexivity.
Qed.

Lemma silent_get_int l : silent (get_int l).
Proof.
  intros w a w'. unfold get_int. case_match; [|discriminate].
  intros [= _ <-]. reflexivity.
Qed.

Lemma silent_set_float l xs : silent (set_float l xs).
Proof.
  intros w a w'. unfold set_float. case_match; [|discriminate].
  intros [= _ <-]. reflexivity.
Qed.

Create HintDb silent_db.
#[export] Hint Resolve silent_ret silent_looping silent_lift
  silent_new_float silent_new_int silent_get_float silent_get_int
  silent_set_float : silent_db.

Ltac silent_steps :=
  repeat first
    [ solve [auto with silent_db]
    | apply silent_bind; [ | intros ? ] ].

Lemma silent_copy_float l : silent (copy_float l).
Proof. unfold copy_float. silent_steps. Qed.

Lemma silent_copy_int l : silent (copy_int l).
Proof. unfold copy_int. silent_steps. Qed.

#[export] Hint Resolve silent_copy_float silent_copy_int : silent_db.

Lemma pe_loop_silent fuel pp sn rp gamma tol V :
  silent (pe_loop fuel pp sn rp gamma tol V).
Proof.
  revert V. induction fuel as [|n IH]; intros V; cbn [pe_loop]; silent_steps.
  case_match; silent_steps.
Qed.

#[export] Hint Resolve pe_loop_silent : silent_db.

Lemma policy_evaluation_silent fuel P nS nA policy gamma tol :
  silent (policy_evaluation fuel P nS nA policy gamma tol).
Proof. unfold policy_evaluation. silent_steps. Qed.

Lemma vi_sweep_silent T nS nA gamma V : silent (vi_sweep T nS nA gamma V).
Proof. unfold vi_sweep. silent_steps. Qed.

#[export] Hint Resolve policy_evaluation_silent vi_sweep_silent : silent_db.

Lemma vi_loop_silent fuel T nS nA gamma tol V :
  silent (vi_loop fuel T nS nA gamma tol V).
Proof.
  revert V. induction fuel as [|n IH]; intros V; cbn [vi_loop]; silent_steps.
  case_match; silent_steps.
Qed.

(** ** Inversion of the store operations *)

Lemma get_int_inv l w xs w' :
  get_int l w = Ret xs w' -> w' = w /\ iarrs w !! l = Some xs.
Proof.
  unfold get_int. destruct (iarrs w !! l); [|discriminate].
  intros [= <- <-]. auto.
Qed.

Lemma copy_float_inv l w c w' :
  copy_float l w = Ret c w' ->
  exists xs, farrs w !! l = Some xs /\ farrs w' !! c = Some xs /\
             iarrs w' = iarrs w.
Proof.
  unfold copy_float. intros H. apply bind_Ret_inv in H as (xs & w1 & H1 & H).
  unfold get_float in H1. destruct (farrs w !! l) eqn:E; [|discriminate].
  injection H1 as <- <-. injection H as <- <-.
  exists l0. split; [reflexivity|]. split; [apply new_float_lookup|reflexivity].
Qed.

Lemma copy_int_inv l w c w' :
  copy_int l w = Ret c w' ->
  exists xs, iarrs w !! l = Some xs /\ iarrs w' !! c = Some xs /\
             farrs w' = farrs w.
Proof.
  unfold copy_int. intros H. apply bind_Ret_inv in H as (xs & w1 & H1 & H).
  apply get_int_inv in H1 as [-> H1]. injection H as <- <-.
  exists xs. split; [exact H1|]. split; [|reflexivity].
  simpl. rewrite lookup_app_r, Nat.sub_diag by lia. reflexivity.
Qed.

Lemma policy_evaluation_inv fuel P nS nA policy gamma tol w pol l w' :
  iarrs w !! policy = Some pol ->
  policy_evaluation fuel P nS nA policy gamma tol w = Ret l w' ->
  exists x, evaluation_values fuel P nS nA pol gamma tol = Ok (Some x) /\
            farrs w' !! l = Some x.
Proof.
  intros Hw H.
  pose proof (policy_evaluation_run fuel P nS nA policy gamma tol w pol Hw) as Hrun.
  destruct (evaluation_values fuel P nS nA pol gamma tol) as [[x|]|e];
    [|congruence|congruence].
  destruct Hrun as (l1 & w1 & Hret & Hx). rewrite H in Hret.
  injection Hret as <- <-. eauto.
Qed.

(** ** The loop of policy iteration *)

Lemma pi_loop_exit budget P nS nA gamma fuel :
  forall V policy w p x l w',
    farrs w !! V = Some x ->
    iarrs w !! policy = Some p ->
    evaluation_values budget P nS nA p gamma default_tol = Ok (Some x) ->
    pi_loop fuel budget P nS nA gamma V policy w = Ret l w' ->
    exists p' x' lines,
      iarrs w' !! l = Some p' /\
      evaluation_values budget P nS nA p' gamma default_tol = Ok (Some x') /\
      greedy P nS nA gamma x' = Ok p' /\
      stdout w' = stdout w ++ lines ++ [p'] /\
      Forall (is_policy nS nA) lines.
Proof.
  induction fuel as [|n IH]; intros V policy w p x l w' HV Hp Hev H;
    [discriminate|].
  cbn [pi_loop] in H.
  apply bind_Ret_inv in H as (pn & w1 & Hi & H).
  pose proof (policy_improvement_extends _ _ _ _ _ _ _ _ _ Hi) as Hg1.
  destruct (policy_improvement_returns _ _ _ _ _ _ _ _ _ _ HV Hi)
    as (best & Hbest & Hpn & Hw1).
  assert (Hpn1 : iarrs w1 !! pn = Some best)
    by (subst pn w1; apply new_policy_lookup).
  assert (Hout1 : stdout w1 = stdout w ++ [best]) by (subst w1; reflexivity).
  clear Hw1 Hpn.
  apply bind_Ret_inv in H as (vn & w2 & He & H).
  pose proof (policy_evaluation_extends _ _ _ _ _ _ _ _ _ _ He) as Hg2.
  pose proof (policy_evaluation_silent _ _ _ _ _ _ _ _ _ _ He) as Hout2.
  destruct (policy_evaluation_inv _ _ _ _ _ _ _ _ _ _ _ Hpn1 He)
    as (x1 & Hev1 & Hx1).
  apply bind_Ret_inv in H as (p0 & w3 & G1 & H).
  apply get_int_inv in G1 as [-> G1].
  rewrite (grows_int _ _ _ _ (grows_trans _ _ _ Hg1 Hg2) Hp) in G1.
  injection G1 as <-.
  apply bind_Ret_inv in H as (p1 & w3 & G2 & H).
  apply get_int_inv in G2 as [-> G2].
  rewrite (grows_int _ _ _ _ Hg2 Hpn1) in G2. injection G2 as <-.
  unfold np_array_equal in H. case_bool_decide as E.
  - injection H as <- <-. subst best.
    exists p, x, []. split; [exact (grows_int _ _ _ _ (grows_trans _ _ _ Hg1 Hg2) Hp)|].
    split; [exact Hev|]. split; [exact Hbest|].
    split; [rewrite Hout2, Hout1; reflexivity|constructor].
  - apply bind_Ret_inv in H as (c & w4 & Hc & H).
    pose proof (silent_copy_float _ _ _ _ Hc) as Hout4.
    apply copy_float_inv in Hc as (xs & Hxs & Hc & Hi4).
    rewrite Hx1 in Hxs. injection Hxs as <-.
    apply bind_Ret_inv in H as (c' & w5 & Hc' & H).
    pose proof (silent_copy_int _ _ _ _ Hc') as Hout5.
    apply copy_int_inv in Hc' as (ys & Hys & Hc' & Hf5).
    rewrite Hi4, (grows_int _ _ _ _ Hg2 Hpn1) in Hys. injection Hys as <-.
    rewrite <- Hf5 in Hc.
    destruct (IH c c' w5 best x1 l w' Hc Hc' Hev1 H)
      as (p' & x' & lines & Hl & Hev' & Hg' & Hout & Hlines).
    exists p', x', (best :: lines).
    split; [exact Hl|]. split; [exact Hev'|]. split; [exact Hg'|].
    split.
    + rewrite Hout, Hout5, Hout4, Hout2, Hout1, <- app_assoc. reflexivity.
    + constructor; [|exact Hlines]. apply (greedy_policy _ _ _ _ _ _ Hbest).
Qed.

(** X10.  When [policy_iteration] returns, the policy it returns is a
    policy of the model's shape and is stable: evaluating it, at the
    tolerance 1e-3 the loop uses and within the same number of sweeps,
    returns a value function whose greedy policy is that same policy. *)
Theorem policy_iteration_returns_a_stable_policy
  fuel P nS nA gamma tol w vf pol w' :
  policy_iteration fuel P nS nA gamma tol w = Ret (vf, pol) w' ->
  exists p x,
    iarrs w' !! pol = Some p /\
    is_policy nS nA p /\
    returns (policy_evaluation fuel P nS nA pol gamma default_tol w')
      (fun V w2 => farrs w2 !! V = Some x) /\
    greedy P nS nA gamma x = Ok p.
Proof.
  unfold policy_iteration. intros H.
  apply bind_Ret_inv in H as (vf0 & w1 & H0 & H). injection H0 as <- <-.
  apply bind_Ret_inv in H as (p0 & w2 & H0 & H). injection H0 as <- <-.
  apply bind_Ret_inv in H as (V & w3 & He & H).
  apply bind_Ret_inv in H as (l & w4 & Hl & H). injection H as <- <- <-.
  match type of He with
  | policy_evaluation _ _ _ _ ?l0 _ _ ?w0 = _ =>
      assert (Hp0 : iarrs w0 !! l0 = Some (np_zeros_int nS))
        by (simpl; rewrite lookup_app_r, Nat.sub_diag by lia; reflexivity)
  end.
  pose proof (policy_evaluation_extends _ _ _ _ _ _ _ _ _ _ He) as Hg.
  destruct (policy_evaluation_inv _ _ _ _ _ _ _ _ _ _ _ Hp0 He)
    as (x0 & Hev0 & Hx0).
  destruct (pi_loop_exit fuel P nS nA gamma fuel V _ w3 _ x0 l w4 Hx0
              (grows_int _ _ _ _ Hg Hp0) Hev0 Hl)
    as (p & x & lines & Hp & Hev & Hgr & _ & _).
  exists p, x. split; [exact Hp|].
  split; [apply (greedy_policy _ _ _ _ _ _ Hgr)|].
  split; [|exact Hgr].
  pose proof (policy_evaluation_run fuel P nS nA l gamma default_tol w4 p Hp)
    as Hrun.
  rewrite Hev in Hrun. destruct Hrun as (V' & w5 & -> & Hx). exact Hx.
Qed.

Lemma policy_iteration_returns_a_stable_policy_witness :
  policy_iteration 1 (self_loop 0) 1 1 (1 # 2) (1 # 1000) empty_world
    = Ret (0, 0)
        {| farrs := [[0]; [0]; [0]; [0 # 2]; [0]; [0]; [0 # 2]]%Q;
           iarrs := [[0]; [0]; [0]]%Z; stdout := [[0%Z]] |} /\
  exists p x,
    iarrs {| farrs := [[0]; [0]; [0]; [0 # 2]; [0]; [0]; [0 # 2]]%Q;
             iarrs := [[0]; [0]; [0]]%Z; stdout := [[0%Z]] |} !! 0 = Some p /\
    is_policy 1 1 p /\
    returns (policy_evaluation 1 (self_loop 0) 1 1 0 (1 # 2) default_tol
               {| farrs := [[0]; [0]; [0]; [0 # 2]; [0]; [0]; [0 # 2]]%Q;
                  iarrs := [[0]; [0]; [0]]%Z; stdout := [[0%Z]] |})
      (fun V w2 => farrs w2 !! V = Some x) /\
    greedy (self_loop 0) 1 1 (1 # 2) x = Ok p.
Proof.
  split; [vm_compute; reflexivity|].
  apply (policy_iteration_returns_a_stable_policy
           1 (self_loop 0) 1 1 (1 # 2) (1 # 1000) empty_world 0).
  vm_compute. reflexivity.
Defined.

(** X11.  When [policy_iteration] returns it has printed at least one
    line, every line it has printed is a policy of the model's shape, and
    the last line printed is the policy it returns. *)
Theorem policy_iteration_prints_every_improvement
  fuel P nS nA gamma tol w vf pol w' :
  policy_iteration fuel P nS nA gamma tol w = Ret (vf, pol) w' ->
  exists lines p,
    stdout w' = stdout w ++ lines ++ [p] /\
    Forall (is_policy nS nA) (lines ++ [p]) /\
    iarrs w' !! pol = Some p.
Proof.
  unfold policy_iteration. intros H.
  apply bind_Ret_inv in H as (vf0 & w1 & H0 & H). injection H0 as <- <-.
  apply bind_Ret_inv in H as (p0 & w2 & H0 & H). injection H0 as <- <-.
  apply bind_Ret_inv in H as (V & w3 & He & H).
  apply bind_Ret_inv in H as (l & w4 & Hl & H). injection H as <- <- <-.
  match type of He with
  | policy_evaluation _ _ _ _ ?l0 _ _ ?w0 = _ =>
      assert (Hp0 : iarrs w0 !! l0 = Some (np_zeros_int nS))
        by (simpl; rewrite lookup_app_r, Nat.sub_diag by lia; reflexivity)
  end.
  pose proof (policy_evaluation_extends _ _ _ _ _ _ _ _ _ _ He) as Hg.
  pose proof (policy_evaluation_silent _ _ _ _ _ _ _ _ _ _ He) as Hout.
  destruct (policy_evaluation_inv _ _ _ _ _ _ _ _ _ _ _ Hp0 He)
    as (x0 & Hev0 & Hx0).
  destruct (pi_loop_exit fuel P nS nA gamma fuel V _ w3 _ x0 l w4 Hx0
              (grows_int _ _ _ _ Hg Hp0) Hev0 Hl)
    as (p & x & lines & Hp & _ & Hgr & Hlines & Hpol).
  exists lines, p. rewrite Hlines, Hout.
  split; [reflexivity|]. split; [|exact Hp].
  apply Forall_app. split; [exact Hpol|].
  constructor; [apply (greedy_policy _ _ _ _ _ _ Hgr)|constructor].
Qed.

Lemma policy_iteration_prints_every_improvement_witness :
  policy_iteration 1 (self_loop 0) 1 1 (1 # 2) (1 # 1000) empty_world
    = Ret (0, 0)
        {| farrs := [[0]; [0]; [0]; [0 # 2]; [0]; [0]; [0 # 2]]%Q;
           iarrs := [[0]; [0]; [0]]%Z; stdout := [[0%Z]] |} /\
  exists lines p,
    stdout {| farrs := [[0]; [0]; [0]; [0 # 2]; [0]; [0]; [0 # 2]]%Q;
              iarrs := [[0]; [0]; [0]]%Z; stdout := [[0%Z]] |}
      = stdout empty_world ++ lines ++ [p] /\
    Forall (is_policy 1 1) (lines ++ [p]) /\
    iarrs {| farrs := [[0]; [0]; [0]; [0 # 2]; [0]; [0]; [0 # 2]]%Q;
             iarrs := [[0]; [0]; [0]]%Z; stdout := [[0%Z]] |} !! 0 = Some p.
Proof.
  split; [vm_compute; reflexivity|].
  apply (policy_iteration_prints_every_improvement
           1 (self_loop 0) 1 1 (1 # 2) (1 # 1000) empty_world 0).
  vm_compute. reflexivity.
Defined.

(** X12.  [value_iteration] prints exactly one line, and that line is the
    policy it returns: its loop prints nothing, its one call to
    [policy_improvement] prints the result. *)
Theorem value_iteration_prints_the_returned_policy
  fuel P nS nA gamma tol w vf pol w' :
  value_iteration fuel P nS nA gamma tol w = Ret (vf, pol) w' ->
  exists best,
    stdout w' = stdout w ++ [best] /\ iarrs w' !! pol = Some best.
Proof.
  unfold value_iteration. intros H.
  apply bind_Ret_inv in H as (vf0 & w1 & H0 & H). injection H0 as <- <-.
  apply bind_Ret_inv in H as (p0 & w2 & H0 & H). injection H0 as <- <-.
  apply bind_Ret_inv in H as (T & w3 & H0 & H).
  apply lift_Ret_inv in H0 as [HT ->].
  apply bind_Ret_inv in H as (l & w4 & Hl & H).
  apply bind_Ret_inv in H as (p1 & w5 & Hp & H). injection H as <- <- <-.
  pose proof (vi_loop_silent _ _ _ _ _ _ _ _ _ _ Hl) as Hout.
  destruct (policy_improvement_reads_value_function _ _ _ _ _ _ _ _ _ Hp)
    as (v & Hv).
  destruct (policy_improvement_returns _ _ _ _ _ _ _ _ _ _ Hv Hp)
    as (best & _ & -> & ->).
  exists best. split; [simpl; rewrite Hout; reflexivity|].
  apply new_policy_lookup.
Qed.

Lemma value_iteration_prints_the_returned_policy_witness :
  value_iteration 1 (self_loop 0) 1 1 (1 # 2) (1 # 1000) empty_world
    = Ret (0, 2) {| farrs := [[0]; [0 # 2]]%Q; iarrs := [[0]; [0]; [0]]%Z;
                    stdout := [[0%Z]] |} /\
  exists best,
    stdout {| farrs := [[0]; [0 # 2]]%Q; iarrs := [[0]; [0]; [0]]%Z;
              stdout := [[0%Z]] |} = stdout empty_world ++ [best] /\
    iarrs {| farrs := [[0]; [0 # 2]]%Q; iarrs := [[0]; [0]; [0]]%Z;
             stdout := [[0%Z]] |} !! 2 = Some best.
Proof.
  split; [vm_compute; reflexivity|].
  apply (value_iteration_prints_the_returned_policy
           1 (self_loop 0) 1 1 (1 # 2) (1 # 1000) empty_world 0).
  vm_compute. reflexivity.
Defined.

(** X13.  None of the four routines changes an array that was in the
    store when it was called, and none removes a printed line: every
    array and line of before is still there after, with the same
    contents, also across the write [out=V_new] of [value_iteration],
    which lands in the array the loop body has just allocated.
    [policy_evaluation] prints nothing. *)
Theorem routines_leave_the_arrays_of_the_caller_alone
  fuel P nS nA gamma tol (policy : iloc) (value_from_policy : floc) :
  extends (policy_evaluation fuel P nS nA policy gamma tol) /\
  silent (policy_evaluation fuel P nS nA policy gamma tol) /\
  extends (policy_improvement P nS nA value_from_policy policy gamma) /\
  extends (policy_iteration fuel P nS nA gamma tol) /\
  extends (value_iteration fuel P nS nA gamma tol).
Proof.
  split; [apply policy_evaluation_extends|].
  split; [apply policy_evaluation_silent|].
  split; [apply policy_improvement_extends|].
  split.
  - unfold policy_iteration. extends_steps.
  - unfold value_iteration. extends_steps.
Qed.

(** ** Value iteration on rewards that are not negative *)

Lemma p_to_tensor_Ok_dense P nS nA T :
  p_to_tensor P nS nA = Ok T ->
  (forall s a, s < nS -> a < nA -> exists t, first_outcome P s a = Ok t) /\
  T = {| prob := dense nS nA (fun s a => probability (first_of P s a));
         s_next := dense nS nA (fun s a => nextstate (first_of P s a));
         r := dense nS nA (fun s a => reward (first_of P s a)) |}.
Proof.
  intros H.
  assert (Hall : forall s a, s < nS -> a < nA ->
            exists t, first_outcome P s a = Ok t).
  { intros s a Hs Ha.
    destruct (first_outcome P s a) as [t|e] eqn:Hf; [eauto|].
    exfalso. rewrite p_to_tensor_as_one_loop in H.
    destruct (for_each (row_major nS nA) _ _) as [PT|e'] eqn:Hloop;
      [|discriminate].
    assert (Hin : (s, a) ∈ row_major nS nA) by (apply elem_of_row_major; lia).
    apply list_elem_of_split in Hin as (pre & post & Hsplit).
    rewrite Hsplit, for_each_app in Hloop.
    destruct (for_each pre _ _) as [acc|e'']; [|discriminate].
    cbn [mbind result_bind for_each fst snd] in Hloop.
    rewrite Hf in Hloop. discriminate. }
  split; [exact Hall|].
  rewrite (p_to_tensor_dense _ _ _ Hall) in H. now injection H as <-.
Qed.

Lemma dense_Forall {A} (I : A -> Prop) nS nA (g : nat -> nat -> A) :
  (forall s a, s < nS -> a < nA -> I (g s a)) ->
  Forall (Forall I) (dense nS nA g).
Proof.
  intros H. unfold dense. apply Forall_fmap, Forall_forall. intros s Hs.
  apply elem_of_seq in Hs. simpl.
  apply Forall_fmap, Forall_forall. intros a Ha. apply elem_of_seq in Ha.
  simpl. apply H; lia.
Qed.

Lemma zip_with_Forall {A B C} (f : A -> B -> C) (I : A -> Prop) (J : B -> Prop)
  (K : C -> Prop) xs ys :
  (forall a b, I a -> J b -> K (f a b)) ->
  Forall I xs -> Forall J ys -> Forall K (zip_with f xs ys).
Proof.
  intros Hf Hxs. revert ys. induction Hxs as [|x xs Hx Hxs IH]; intros ys Hys.
  - constructor.
  - destruct Hys as [|y ys Hy Hys]; simpl; constructor; auto.
Qed.

Lemma np_binop2_Forall {A B C} (f : A -> B -> C) (I : A -> Prop)
  (J : B -> Prop) (K : C -> Prop) xs ys :
  (forall a b, I a -> J b -> K (f a b)) ->
  Forall (Forall I) xs -> Forall (Forall J) ys ->
  Forall (Forall K) (np_binop2 f xs ys).
Proof.
  intros Hf. unfold np_binop2.
  apply zip_with_Forall. intros a b. now apply zip_with_Forall.
Qed.

Lemma map_result_Forall {A B} (f : A -> result B) (I : B -> Prop) xs :
  (forall x y, f x = Ok y -> I y) ->
  forall ys, map_result f xs = Ok ys -> Forall I ys.
Proof.
  intros Hf. induction xs as [|x xs IH]; intros ys; cbn [map_result].
  - intros [= <-]. constructor.
  - intros H. apply result_bind_Ok_inv in H as (y & Hy & H).
    apply result_bind_Ok_inv in H as (ys' & Hys & H). injection H as <-.
    constructor; eauto.
Qed.

Lemma map_result_Forall_from {A B} (f : A -> result B) (J : A -> Prop)
  (I : B -> Prop) xs :
  (forall x y, J x -> f x = Ok y -> I y) ->
  Forall J xs ->
  forall ys, map_result f xs = Ok ys -> Forall I ys.
Proof.
  intros Hf Hxs. induction Hxs as [|x xs Hx Hxs IH]; intros ys;
    cbn [map_result].
  - intros [= <-]. constructor.
  - intros H. apply result_bind_Ok_inv in H as (y & Hy & H).
    apply result_bind_Ok_inv in H as (ys' & Hys & H). injection H as <-.
    constructor; eauto.
Qed.

Lemma np_index_elem {A} (xs : list A) i a : np_index xs i = Ok a -> a ∈ xs.
Proof.
  unfold np_index.
  destruct (0 <=? i)%Z; [|destruct (_ <=? i)%Z; [|discriminate]];
    (destruct (xs !! _) as [b|] eqn:E; [|discriminate]);
    intros [= <-]; eapply list_elem_of_lookup_2; eauto.
Qed.

Lemma np_take_Forall {A} (I : A -> Prop) (xs : list A) idx ys :
  Forall I xs -> np_take xs idx = Ok ys -> Forall I ys.
Proof.
  intros Hxs. unfold np_take. apply map_result_Forall. intros i a Ha.
  apply np_index_elem in Ha. rewrite Forall_forall in Hxs. auto.
Qed.

Lemma fold_Qmaximum_nonneg rest :
  forall x, (0 <= x)%Q -> Forall (fun q => (0 <= q)%Q) rest ->
            (0 <= fold_left Qmaximum rest x)%Q.
Proof.
  induction rest as [|y rest IH]; intros x Hx Hr; [exact Hx|].
  inversion Hr; subst. simpl. apply IH; [|assumption].
  unfold Qmaximum. destruct (Qle_bool x y); assumption.
Qed.

Lemma np_max_nonneg row m :
  Forall (fun q => (0 <= q)%Q) row -> np_max row = Ok m -> (0 <= m)%Q.
Proof.
  destruct row as [|x rest]; [discriminate|]. intros H [= <-].
  inversion H; subst. now apply fold_Qmaximum_nonneg.
Qed.

Lemma Qmaximum_zero_id best :
  Forall (fun q => (0 <= q)%Q) best -> Qmaximum 0 <$> best = best.
Proof.
  induction 1 as [|b best Hb _ IH]; [reflexivity|].
  cbn [fmap list_fmap]. f_equal; [|exact IH].
  unfold Qmaximum. apply Qle_bool_iff in Hb. now rewrite Hb.
Qed.

Lemma optimality_backup_nonneg P nS nA gamma T v best :
  p_to_tensor P nS nA = Ok T -> nonnegative P nS nA -> (0 <= gamma)%Q ->
  Forall (fun q => (0 <= q)%Q) v ->
  optimality_backup T nA gamma v = Ok best ->
  Forall (fun q => (0 <= q)%Q) best.
Proof.
  intros HT Hnn Hg Hv H. unfold optimality_backup in H.
  apply result_bind_Ok_inv in H as (Qsa & HQ & H).
  unfold np_max_axis1 in H. destruct (Nat.eqb nA 0); [discriminate|].
  assert (HQsa : Forall (Forall (fun q => (0 <= q)%Q)) Qsa).
  { unfold q_values in HQ.
    apply result_bind_Ok_inv in HQ as (vs & Hvs & HQ). injection HQ as <-.
    destruct (p_to_tensor_Ok_dense _ _ _ _ HT) as (Hall & ->).
    cbn [prob s_next r] in *.
    assert (Hfirst : forall s a, s < nS -> a < nA ->
              (0 <= probability (first_of P s a))%Q /\
              (0 <= reward (first_of P s a))%Q).
    { intros s a Hs Ha. destruct (Hall s a Hs Ha) as (t & Ht).
      unfold first_of. rewrite Ht.
      apply first_outcome_Ok_iff in Ht as (rest & Ht). eauto. }
    apply (np_binop2_Forall _ (fun q => (0 <= q)%Q) (fun q => (0 <= q)%Q)).
    - intros a b Ha Hb. now apply Qmult_le_0_compat.
    - apply dense_Forall. intros s a Hs Ha. apply Hfirst; assumption.
    - apply (np_binop2_Forall _ (fun q => (0 <= q)%Q) (fun q => (0 <= q)%Q)).
      + intros a b Ha Hb.
        change 0%Q with (0 + 0)%Q. now apply Qplus_le_compat.
      + apply dense_Forall. intros s a Hs Ha. apply Hfirst; assumption.
      + unfold np_map2. apply Forall_fmap.
        assert (Hvs' : Forall (Forall (fun q => (0 <= q)%Q)) vs).
        { revert Hvs. apply map_result_Forall. intros idx ys.
          now apply np_take_Forall. }
        eapply Forall_impl; [exact Hvs'|]. intros row Hrow. simpl.
        apply Forall_fmap. eapply Forall_impl; [exact Hrow|].
        intros q Hq. simpl. now apply Qmult_le_0_compat. }
  revert H. apply map_result_Forall_from with (J := Forall (fun q => (0 <= q)%Q));
    [|exact HQsa].
  intros row m Hrow Hm. now apply np_max_nonneg with row.
Qed.

Lemma vi_iterates_nonneg P nS nA gamma T k Vk :
  p_to_tensor P nS nA = Ok T ->
  iterates (vi_step T nS nA gamma) k (np_zeros nS) = Ok Vk ->
  Forall (fun q => (0 <= q)%Q) Vk.
Proof.
  intros HT. destruct k as [|k]; cbn [iterates].
  - intros [= <-]. apply Forall_replicate. apply Qle_refl.
  - intros H. apply result_bind_Ok_inv in H as (y & _ & H).
    destruct (vi_step_clamp _ _ _ _ _ _ _ HT H) as (best & _ & ->).
    apply clamped_nonneg.
Qed.

Lemma vi_step_is_backup P nS nA gamma T v x :
  p_to_tensor P nS nA = Ok T -> nonnegative P nS nA -> (0 <= gamma)%Q ->
  Forall (fun q => (0 <= q)%Q) v ->
  vi_step T nS nA gamma v = Ok x ->
  optimality_backup T nA gamma v = Ok x.
Proof.
  intros HT Hnn Hg Hv Hx.
  destruct (vi_step_clamp _ _ _ _ _ _ _ HT Hx) as (best & Hb & ->).
  rewrite Qmaximum_zero_id; [exact Hb|].
  eapply optimality_backup_nonneg; eauto.
Qed.

Lemma vi_iterates_are_backup_iterates P nS nA gamma T :
  p_to_tensor P nS nA = Ok T -> nonnegative P nS nA -> (0 <= gamma)%Q ->
  forall k Vk,
    iterates (vi_step T nS nA gamma) k (np_zeros nS) = Ok Vk ->
    iterates (optimality_backup T nA gamma) k (np_zeros nS) = Ok Vk.
Proof.
  intros HT Hnn Hg. induction k as [|k IH]; intros Vk; cbn [iterates].
  - auto.
  - intros H. apply result_bind_Ok_inv in H as (y & Hy & H).
    rewrite (IH y Hy). cbn [mbind result_bind].
    eapply vi_step_is_backup; eauto using vi_iterates_nonneg.
Qed.

(** X14.  On a model in which no outcome the adapter reads has a negative
    probability or reward, and with gamma >= 0, the clamp at zero of
    [value_iteration] changes nothing: a sweep from a value function
    without negative entries leaves the Bellman optimality backup in
    [V_new], the iterates of the loop are those of the backup, and when
    [value_iteration] returns it has left its loop at the first iterate of
    the backup within [tol] of the one before, and returns its greedy
    policy. *)
Theorem clamp_changes_nothing_when_nothing_is_negative P nS nA gamma T :
  p_to_tensor P nS nA = Ok T -> nonnegative P nS nA -> (0 <= gamma)%Q ->
  (forall V w v V_new w',
     farrs w !! V = Some v ->
     Forall (fun q => (0 <= q)%Q) v ->
     vi_sweep T nS nA gamma V w = Ret V_new w' ->
     exists x, optimality_backup T nA gamma v = Ok x /\
               farrs w' !! V_new = Some x) /\
  (forall k Vk,
     iterates (vi_step T nS nA gamma) k (np_zeros nS) = Ok Vk ->
     iterates (optimality_backup T nA gamma) k (np_zeros nS) = Ok Vk) /\
  (forall fuel tol w vf pol w',
     value_iteration fuel P nS nA gamma tol w = Ret (vf, pol) w' ->
     exists k x best,
       k < fuel /\
       leaves_at (optimality_backup T nA gamma) tol (np_zeros nS) k x /\
       greedy P nS nA gamma x = Ok best /\
       iarrs w' !! pol = Some best).
Proof.
  intros HT Hnn Hg. split; [|split].
  - intros V w v V_new w' HV Hv H.
    rewrite (vi_sweep_run _ _ _ _ _ _ v HV) in H.
    destruct (vi_step T nS nA gamma v) as [x|e] eqn:Hx; [|discriminate].
    injection H as <- <-. exists x.
    split; [eapply vi_step_is_backup; eauto|apply new_float_lookup].
  - now apply vi_iterates_are_backup_iterates with P.
  - intros fuel tol w vf pol w' H.
    apply value_iteration_returns in H as (T' & x & best & HT' & Hx & Hgr & Hp).
    rewrite HT in HT'. injection HT' as <-.
    apply fixpoint_loop_leaves_iff in Hx as (k & Hk & v & Hv & Hs & Hpass & Hb).
    exists k, x, best. split; [exact Hk|]. split; [|auto].
    exists v.
    split; [eapply vi_iterates_are_backup_iterates; eauto|].
    split; [eapply vi_step_is_backup; eauto using vi_iterates_nonneg|].
    split; [exact Hpass|].
    intros j Hj. destruct (Hb j Hj) as (vj & xj & Hvj & Hxj & Hfail).
    exists vj, xj.
    split; [eapply vi_iterates_are_backup_iterates; eauto|].
    split; [eapply vi_step_is_backup; eauto using vi_iterates_nonneg|].
    exact Hfail.
Qed.

Lemma self_loop_nonnegative : nonnegative (self_loop 1) 1 1.
Proof.
  intros s a t rest Hs Ha. destruct s; [|lia]. destruct a; [|lia].
  vm_compute. intros [= <- <-]. split; discriminate.
Qed.

Lemma clamp_changes_nothing_when_nothing_is_negative_witness :
  p_to_tensor (self_loop 1) 1 1
    = Ok {| prob := [[1%Q]]; s_next := [[0%Z]]; r := [[1%Q]] |} /\
  nonnegative (self_loop 1) 1 1 /\
  (0 <= 1 # 2)%Q /\
  forall k Vk,
    iterates (vi_step {| prob := [[1%Q]]; s_next := [[0%Z]]; r := [[1%Q]] |}
                1 1 (1 # 2)) k (np_zeros 1) = Ok Vk ->
    iterates (optimality_backup
                {| prob := [[1%Q]]; s_next := [[0%Z]]; r := [[1%Q]] |}
                1 (1 # 2)) k (np_zeros 1) = Ok Vk.
Proof.
  split; [vm_compute; reflexivity|].
  split; [exact self_loop_nonnegative|].
  split; [discriminate|].
  apply (proj1 (proj2 (clamp_changes_nothing_when_nothing_is_negative
                         (self_loop 1) 1 1 (1 # 2) _
                         eq_refl self_loop_nonnegative
                         ltac:(discriminate)))).
Defined.

(** ** How close the result of policy evaluation is to a fixed point *)



Section EvaluationAccuracy.

Context (P : model) (nS nA : nat) (pol : list Z) (gamma : Q).
Hypothesis model_ok : single_outcome P nS nA.
Hypothesis policy_ok : is_policy nS nA pol.
Hypothesis states : 0 < nS.
Hypothesis gamma_nonneg : (0 <= gamma)%Q.



Hypothesis gamma_below_one : (gamma < 1)%Q.


End EvaluationAccuracy.



(** ** The sweep of value iteration, entry by entry *)










(** ** Value iteration terminates *)












(** ** The rollout drivers *)

Lemma drv_bind_run {E A B} (m : Drv E A) (k : A -> Drv E B) s :
  (m ≫= k) s = match m s with
               | Returned a s' => k a s'
               | Raised e s' => Raised e s'
               end.
Proof. reflexivity. Qed.

Lemma count_app p evs evs' : count p (evs ++ evs') = count p evs + count p evs'.
Proof. induction evs as [|ev evs IH]; simpl; [reflexivity|]. rewrite IH. lia. Qed.

Lemma rewards_from_app acc evs evs' :
  rewards_from acc (evs ++ evs') = rewards_from (rewards_from acc evs) evs'.
Proof. unfold rewards_from. apply fold_left_app. Qed.

Lemma rewards_from_plus acc evs :
  (rewards_from acc evs == acc + rewards evs)%Q.
Proof.
  unfold rewards. revert acc.
  induction evs as [|ev evs IH]; intros acc.
  - simpl. lra.
  - unfold rewards_from in *. cbn [fold_left]. rewrite IH.
    rewrite (IH (match ev with Step _ _ rew _ => (0 + rew)%Q | _ => 0%Q end)).
    destruct ev; lra.
Qed.

Lemma rewards_app evs evs' :
  (rewards (evs ++ evs') == rewards evs + rewards evs')%Q.
Proof.
  unfold rewards at 1. rewrite rewards_from_app.
  rewrite rewards_from_plus. reflexivity.
Qed.


Lemma np_index_raises_IndexError {A} (xs : list A) i e :
  np_index xs i = Err e -> e = IndexError.
Proof.
  unfold np_index.
  destruct (0 <=? i)%Z; [|destruct (_ <=? i)%Z];
    try (destruct (xs !! _)); simpl; congruence.
Qed.


(** The inner loop of [run_n]. *)
Lemma episode_loop_spec {E} (env : environment E) policy n :
  forall ob acc s,
    match episode_loop env policy n ob acc s with
    | Returned q s' =>
        exists evs,
          log s' = log s ++ evs /\
          q = rewards_from acc evs /\
          count is_step evs <= n /\
          count is_reset evs = 0 /\
          count is_print evs = 0
    | Raised e s' =>
        exists evs,
          log s' = log s ++ evs /\
          count is_print evs = 0 /\
          (e = EnvironmentRaised \/ e = Numpy IndexError)
    end.
Proof.
  induction n as [|n IH]; intros ob acc s.
  - exists []. rewrite app_nil_r. simpl. repeat split; lia.
  - cbn [episode_loop]. rewrite drv_bind_run. unfold index_policy.
    destruct (np_index policy ob) as [a|e] eqn:Ha.
    + unfold mret at 1, Drv_ret at 1. cbv beta iota.
      rewrite drv_bind_run. unfold step.
      destruct (env_step env (hidden s) a) as [[[[ob' rew] d] h]|].
      * cbn [fst snd]. destruct d.
        -- exists [Step a ob' rew true]. cbn [log]. simpl.
           repeat split; lia.
        -- match goal with
           | |- context [episode_loop env policy n ?o ?q ?s0] =>
               specialize (IH o q s0);
               destruct (episode_loop env policy n o q s0) as [x s'|e s']
           end.
           ++ destruct IH as (evs & Hlog & Hq & Hst & Hrs & Hpr).
              exists ([Step a ob' rew false] ++ evs).
              cbn [log] in Hlog. rewrite Hlog, <- !app_assoc.
              split; [reflexivity|]. split; [exact Hq|].
              rewrite !count_app. simpl. lia.
           ++ destruct IH as (evs & Hlog & Hpr & He).
              exists ([Step a ob' rew false] ++ evs).
              cbn [log] in Hlog. rewrite Hlog, <- !app_assoc.
              split; [reflexivity|]. rewrite count_app. simpl.
              split; [lia|exact He].
      * exists []. rewrite app_nil_r. simpl. auto.
    + exists []. unfold raise. rewrite app_nil_r. simpl.
      rewrite (np_index_raises_IndexError _ _ _ Ha). auto.
Qed.

(** The outer loop of [run_n]. *)
Lemma episodes_spec {E} (env : environment E) policy max_steps n :
  forall total s,
    match episodes env policy max_steps n total s with
    | Returned q s' =>
        exists evs,
          log s' = log s ++ evs /\
          (q == total + rewards evs)%Q /\
          count is_reset evs = n /\
          count is_step evs <= n * max_steps /\
          count is_print evs = 0
    | Raised e s' =>
        exists evs,
          log s' = log s ++ evs /\
          count is_print evs = 0 /\
          0 < n /\
          (e = EnvironmentRaised \/ e = Numpy IndexError)
    end.
Proof.
  induction n as [|n IH]; intros total s.
  - exists []. rewrite app_nil_r. simpl. unfold rewards. simpl.
    repeat split; try lia. lra.
  - cbn [episodes]. cbv zeta. rewrite drv_bind_run. unfold reset.
    destruct (env_reset env (hidden s)) as [[ob h]|].
    + rewrite drv_bind_run.
      match goal with
      | |- context [episode_loop env policy max_steps ob 0%Q ?s0] =>
          pose proof (episode_loop_spec env policy max_steps ob 0%Q s0) as He;
          destruct (episode_loop env policy max_steps ob 0%Q s0) as [q s1|e s1]
      end.
      * destruct He as (evs & Hlog & Hq & Hst & Hrs & Hpr). cbn [log] in Hlog.
        specialize (IH (total + q)%Q s1).
        destruct (episodes env policy max_steps n (total + q) s1) as [q' s2|e s2].
        -- destruct IH as (evs' & Hlog' & Hq' & Hrs' & Hst' & Hpr').
           exists (([Reset ob] ++ evs) ++ evs').
           rewrite Hlog', Hlog, <- !app_assoc.
           split; [reflexivity|]. split.
           ++ rewrite Hq', app_assoc, rewards_app. unfold rewards at 2.
              rewrite rewards_from_app. simpl. rewrite <- Hq. lra.
           ++ rewrite !count_app. simpl. lia.
        -- destruct IH as (evs' & Hlog' & Hpr' & _ & He).
           exists (([Reset ob] ++ evs) ++ evs').
           rewrite Hlog', Hlog, <- !app_assoc.
           split; [reflexivity|]. rewrite !count_app. simpl.
           split; [lia|]. split; [lia|exact He].
      * destruct He as (evs & Hlog & Hpr & He). cbn [log] in Hlog.
        exists ([Reset ob] ++ evs). rewrite Hlog, <- app_assoc.
        split; [reflexivity|]. rewrite count_app. simpl.
        split; [lia|]. split; [lia|exact He].
    + exists []. rewrite app_nil_r. simpl. split; [reflexivity|].
      split; [lia|]. split; [lia|]. now left.
Qed.

(** X19.  [run_n] with [iters = 0] never touches the environment: it
    prints the number of iterations and raises ZeroDivisionError at the
    average.  With [iters > 0] it prints nothing unless every rollout
    went through; it has then reset the environment [iters] times, made
    at most [iters * max_steps] steps, and printed two lines, last of
    all: the number of iterations, and the sum of the rewards of all the
    steps over [iters]. *)
Theorem run_n_prints_the_average_or_raises {E} (env : environment E)
  policy max_steps iters s :
  match run_n env policy max_steps iters s with
  | Returned _ s' =>
      0 < iters /\
      exists evs total,
        log s' = log s ++ evs ++ [PrintIterations iters;
                                  PrintAverage total iters] /\
        (total == rewards evs)%Q /\
        count is_reset evs = iters /\
        count is_step evs <= iters * max_steps /\
        count is_print evs = 0
  | Raised e s' =>
      (iters = 0 /\ e = ZeroDivisionError /\
       s' = {| hidden := hidden s; log := log s ++ [PrintIterations 0] |}) \/
      (0 < iters /\ (e = EnvironmentRaised \/ e = Numpy IndexError) /\
       exists evs, log s' = log s ++ evs /\ count is_print evs = 0)
  end.
Proof.
  unfold run_n. rewrite drv_bind_run.
  pose proof (episodes_spec env policy max_steps iters 0%Q s) as He.
  destruct iters as [|n].
  - left. auto.
  - destruct (episodes env policy max_steps (S n) 0 s) as [q s1|e s1].
    + destruct He as (evs & Hlog & Hq & Hrs & Hst & Hpr).
      rewrite drv_bind_run. unfold emit. cbn [Nat.eqb hidden log].
      split; [lia|]. exists evs, q. rewrite Hlog, <- !app_assoc.
      split; [reflexivity|]. split; [rewrite Hq; lra|]. auto.
    + destruct He as (evs & Hlog & Hpr & _ & He).
      right. split; [lia|]. split; [exact He|]. eauto.
Qed.

(** ** What the routines read of the model *)

Lemma dense_ext {A} nS nA (g h : nat -> nat -> A) :
  (forall s a, s < nS -> a < nA -> g s a = h s a) ->
  dense nS nA g = dense nS nA h.
Proof.
  intros H. unfold dense. apply list_fmap_ext. intros i s Hs.
  apply lookup_seq in Hs as [-> Hs]. simpl.
  apply list_fmap_ext. intros j a Ha. apply lookup_seq in Ha as [-> Ha].
  simpl. now apply H.
Qed.

Lemma p_to_tensor_Err_first P nS nA e :
  p_to_tensor P nS nA = Err e <->
  exists pre s a post,
    row_major nS nA = pre ++ (s, a) :: post /\
    Forall (fun p => exists t, first_outcome P p.1 p.2 = Ok t) pre /\
    first_outcome P s a = Err e.
Proof.
  rewrite p_to_tensor_as_one_loop.
  pose proof (for_each_first_error
                (fun p : nat * nat => first_outcome P p.1 p.2)
                (fun T p t => tensor_set T p.1 p.2 (transition_row t))
                (row_major nS nA)
                (replicate nS (replicate nA (replicate 4 0%Q))) e) as Hloop.
  split.
  - intros H.
    destruct (for_each (row_major nS nA) _ _) as [PT|e'] eqn:Hl; [discriminate|].
    injection H as ->.
    destruct (proj1 Hloop eq_refl) as (pre & [s a] & post & Hs & Hpre & Hx).
    exists pre, s, a, post. auto.
  - intros (pre & s & a & post & Hs & Hpre & Hx).
    rewrite (proj2 Hloop); [reflexivity|]. exists pre, (s, a), post. auto.
Qed.

Lemma same_first_outcomes_tensor P P' nS nA :
  same_first_outcomes P P' nS nA ->
  p_to_tensor P nS nA = p_to_tensor P' nS nA.
Proof.
  intros H. destruct (p_to_tensor P nS nA) as [T|e] eqn:HT.
  - destruct (p_to_tensor_Ok_dense _ _ _ _ HT) as (Hall & ->).
    symmetry. rewrite p_to_tensor_dense.
    + f_equal. f_equal; apply dense_ext; intros s a Hs Ha;
        specialize (H s a Hs Ha); unfold first_of;
        destruct (Hall s a Hs Ha) as (t & Ht); rewrite Ht in *;
        destruct (first_outcome P' s a); try contradiction;
        destruct H as (? & ? & ?); congruence.
    + intros s a Hs Ha. specialize (H s a Hs Ha).
      destruct (Hall s a Hs Ha) as (t & Ht). rewrite Ht in H.
      destruct (first_outcome P' s a); [eauto|contradiction].
  - symmetry. apply p_to_tensor_Err_first.
    apply p_to_tensor_Err_first in HT as (pre & s & a & post & Hs & Hpre & Hx).
    exists pre, s, a, post. split; [exact Hs|].
    assert (Hin : forall p, p ∈ row_major nS nA -> p.1 < nS /\ p.2 < nA)
      by (intros [s' a'] Hp; now apply elem_of_row_major).
    split.
    + apply Forall_forall. intros p Hp.
      rewrite Forall_forall in Hpre. destruct (Hpre p Hp) as (t & Ht).
      destruct (Hin p) as [H1 H2];
        [rewrite Hs; apply elem_of_app; now left|].
      specialize (H p.1 p.2 H1 H2). rewrite Ht in H.
      destruct (first_outcome P' p.1 p.2); [eauto|contradiction].
    + destruct (Hin (s, a)) as [H1 H2];
        [rewrite Hs; apply elem_of_app; right; apply list_elem_of_here|].
      specialize (H s a H1 H2). cbn [fst snd] in H. rewrite Hx in H.
      destruct (first_outcome P' s a); [contradiction|congruence].
Qed.

(** X20.  The routines read of the model only the probability, next
    state and reward of the first outcome of each pair: two models that
    agree on these (or lack a first outcome in the same way) give the
    same arrays in the adapter and the same run of each of the four
    routines from every store, whatever their [terminal] flags and
    whatever outcomes follow the first. *)
Theorem routines_read_only_the_first_outcome P P' nS nA :
  same_first_outcomes P P' nS nA ->
  p_to_tensor P nS nA = p_to_tensor P' nS nA /\
  forall fuel gamma tol (policy : iloc) (value_from_policy : floc) w,
    policy_evaluation fuel P nS nA policy gamma tol w
    = policy_evaluation fuel P' nS nA policy gamma tol w /\
    policy_improvement P nS nA value_from_policy policy gamma w
    = policy_improvement P' nS nA value_from_policy policy gamma w /\
    policy_iteration fuel P nS nA gamma tol w
    = policy_iteration fuel P' nS nA gamma tol w /\
    value_iteration fuel P nS nA gamma tol w
    = value_iteration fuel P' nS nA gamma tol w.
Proof.
  intros H. pose proof (same_first_outcomes_tensor _ _ _ _ H) as Heq.
  split; [exact Heq|].
  assert (He : forall fuel,
            policy_evaluation fuel P nS nA = policy_evaluation fuel P' nS nA)
    by (intros fuel; unfold policy_evaluation; rewrite Heq; reflexivity).
  assert (Hi : policy_improvement P nS nA = policy_improvement P' nS nA)
    by (unfold policy_improvement; rewrite Heq; reflexivity).
  assert (Hl : forall fuel budget,
            pi_loop fuel budget P nS nA = pi_loop fuel budget P' nS nA).
  { induction fuel as [|n IH]; intros budget; [reflexivity|].
    cbn [pi_loop]. rewrite Hi, He, IH. reflexivity. }
  intros fuel gamma tol policy value_from_policy w.
  split; [now rewrite He|]. split; [now rewrite Hi|]. split.
  - unfold policy_iteration. rewrite He, Hl. reflexivity.
  - unfold value_iteration. rewrite Heq, Hi. reflexivity.
Qed.

Lemma two_outcomes_same_first_outcomes :
  same_first_outcomes two_outcomes first_outcomes_only 2 1.
Proof.
  intros s a Hs Ha. destruct s as [|[|s]]; [| |lia];
    (destruct a; [|lia]); vm_compute; auto.
Qed.

Lemma routines_read_only_the_first_outcome_witness :
  same_first_outcomes two_outcomes first_outcomes_only 2 1 /\
  p_to_tensor two_outcomes 2 1 = p_to_tensor first_outcomes_only 2 1 /\
  forall fuel gamma tol (policy : iloc) (value_from_policy : floc) w,
    policy_evaluation fuel two_outcomes 2 1 policy gamma tol w
    = policy_evaluation fuel first_outcomes_only 2 1 policy gamma tol w /\
    policy_improvement two_outcomes 2 1 value_from_policy policy gamma w
    = policy_improvement first_outcomes_only 2 1 value_from_policy policy
        gamma w /\
    policy_iteration fuel two_outcomes 2 1 gamma tol w
    = policy_iteration fuel first_outcomes_only 2 1 gamma tol w /\
    value_iteration fuel two_outcomes 2 1 gamma tol w
    = value_iteration fuel first_outcomes_only 2 1 gamma tol w.
Proof.
  split; [exact two_outcomes_same_first_outcomes|].
  apply (routines_read_only_the_first_outcome two_outcomes first_outcomes_only
           2 1 two_outcomes_same_first_outcomes).
Defined.

Example drivers_on_three_steps :
  render_single three_steps [0%Z] 0 fresh
    = Raised UnboundLocalError {| hidden := 0; log := [Reset 0; Render] |} /\
  render_single three_steps [0%Z] 5 fresh
    = Returned tt
        {| hidden := 3;
           log := [Reset 0; Render; Sleep; Step 0 0 1 false;
                   Render; Sleep; Step 0 0 1 false;
                   Render; Sleep; Step 0 0 1 true;
                   Render; PrintEpisodeReward 3] |} /\
  render_single three_steps [0%Z] 2 fresh
    = Returned tt
        {| hidden := 2;
           log := [Reset 0; Render; Sleep; Step 0 0 1 false;
                   Render; Sleep; Step 0 0 1 false;
                   Render; PrintNotTerminal 2] |} /\
  render_single three_steps [] 2 fresh
    = Raised (Numpy IndexError)
        {| hidden := 0; log := [Reset 0; Render; Sleep] |} /\
  run_n three_steps [0%Z] 2 2 fresh
    = Returned tt
        {| hidden := 2;
           log := [Reset 0; Step 0 0 1 false; Step 0 0 1 false;
                   Reset 0; Step 0 0 1 false; Step 0 0 1 false;
                   PrintIterations 2; PrintAverage 4 2] |} /\
  run_n three_steps [0%Z] 2 0 fresh
    = Raised ZeroDivisionError {| hidden := 0; log := [PrintIterations 0] |}.
Proof. repeat split; vm_compute; reflexivity. Qed.

Lemma plays_app policy evs evs' :
  (forall last, plays policy last evs') ->
  forall last, plays policy last evs -> plays policy last (evs ++ evs').
Proof.
  intros H'. induction evs as [|ev evs IH]; intros last H; [apply H'|].
  destruct ev; cbn [app plays] in *; try (apply IH; exact H).
  destruct H as [Ha H]. split; [exact Ha|]. apply IH, H.
Qed.

Lemma render_loop_plays {E} (env : environment E) policy n :
  forall ob acc done s,
    exists evs,
      log (final (render_loop env policy n ob acc done s)) = log s ++ evs /\
      plays policy (Some ob) evs.
Proof.
  induction n as [|n IH]; intros ob acc done s.
  - exists []. rewrite app_nil_r. split; reflexivity.
  - cbn [render_loop]. rewrite drv_bind_run. unfold emit at 1. cbv beta iota.
    rewrite drv_bind_run. unfold emit at 1. cbv beta iota. cbn [hidden log].
    rewrite drv_bind_run. unfold index_policy.
    destruct (np_index policy ob) as [a|e] eqn:Ha.
    + unfold mret at 1, Drv_ret at 1. cbv beta iota.
      rewrite drv_bind_run. unfold step. cbn [hidden log].
      destruct (env_step env (hidden s) a) as [[[[ob' rew] d] h]|].
      * cbn [fst snd]. destruct d.
        -- exists [Render; Sleep; Step a ob' rew true]. cbn [final log].
           rewrite <- !app_assoc. split; [reflexivity|].
           cbn [plays]. eauto.
        -- match goal with
           | |- context [render_loop env policy n ?o ?q ?d ?s0] =>
               destruct (IH o q d s0) as (evs & Hlog & Hp)
           end.
           exists ([Render; Sleep; Step a ob' rew false] ++ evs).
           rewrite Hlog. cbn [log]. rewrite <- !app_assoc.
           split; [reflexivity|]. cbn [app plays]. eauto.
      * exists [Render; Sleep]. cbn [final log]. rewrite <- !app_assoc.
        split; reflexivity.
    + exists [Render; Sleep]. unfold raise. cbn [final log].
      rewrite <- !app_assoc. split; reflexivity.
Qed.

Lemma episode_loop_plays {E} (env : environment E) policy n :
  forall ob acc s,
    exists evs,
      log (final (episode_loop env policy n ob acc s)) = log s ++ evs /\
      plays policy (Some ob) evs.
Proof.
  induction n as [|n IH]; intros ob acc s.
  - exists []. rewrite app_nil_r. split; reflexivity.
  - cbn [episode_loop]. rewrite drv_bind_run. unfold index_policy.
    destruct (np_index policy ob) as [a|e] eqn:Ha.
    + unfold mret at 1, Drv_ret at 1. cbv beta iota.
      rewrite drv_bind_run. unfold step.
      destruct (env_step env (hidden s) a) as [[[[ob' rew] d] h]|].
      * cbn [fst snd]. destruct d.
        -- exists [Step a ob' rew true]. cbn [final log].
           split; [reflexivity|]. cbn [plays]. eauto.
        -- match goal with
           | |- context [episode_loop env policy n ?o ?q ?s0] =>
               destruct (IH o q s0) as (evs & Hlog & Hp)
           end.
           exists ([Step a ob' rew false] ++ evs).
           rewrite Hlog. cbn [log]. rewrite <- !app_assoc.
           split; [reflexivity|]. cbn [app plays]. eauto.
      * exists []. rewrite app_nil_r. split; reflexivity.
    + exists []. unfold raise. rewrite app_nil_r. split; reflexivity.
Qed.

Lemma episodes_plays {E} (env : environment E) policy max_steps n :
  forall total s,
    exists evs,
      log (final (episodes env policy max_steps n total s)) = log s ++ evs /\
      forall last, plays policy last evs.
Proof.
  induction n as [|n IH]; intros total s.
  - exists []. rewrite app_nil_r. split; [reflexivity|]. intros last. exact I.
  - cbn [episodes]. cbv zeta. rewrite drv_bind_run. unfold reset.
    destruct (env_reset env (hidden s)) as [[ob h]|].
    + rewrite drv_bind_run.
      match goal with
      | |- context [episode_loop env policy max_steps ob 0%Q ?s0] =>
          destruct (episode_loop_plays env policy max_steps ob 0%Q s0)
            as (evs & Hlog & Hp);
          destruct (episode_loop env policy max_steps ob 0%Q s0) as [q s1|e s1]
      end; cbn [final log] in Hlog.
      * destruct (IH (total + q)%Q s1) as (evs' & Hlog' & Hp').
        exists (Reset ob :: evs ++ evs'). rewrite Hlog', Hlog, <- !app_assoc.
        split; [reflexivity|]. intros last. cbn [plays].
        now apply plays_app.
      * exists (Reset ob :: evs). cbn [final]. rewrite Hlog, <- !app_assoc.
        split; [reflexivity|]. intros last. exact Hp.
    + exists []. rewrite app_nil_r. split; [reflexivity|]. intros last. exact I.
Qed.

(** X21.  Whatever the environment does, and whether they return or
    raise, [render_single] and [run_n] play the policy they are given:
    every action they pass to [env.step] is [policy[ob]] for the
    observation that the reset or the step before it returned, and after
    a step that has ended an episode they make no further step without a
    reset. *)
Theorem drivers_play_the_policy {E} (env : environment E) policy
  max_steps iters s :
  (exists evs,
     log (final (render_single env policy max_steps s)) = log s ++ evs /\
     plays policy None evs) /\
  (exists evs,
     log (final (run_n env policy max_steps iters s)) = log s ++ evs /\
     plays policy None evs).
Proof.
  split.
  - unfold render_single. cbv zeta. rewrite drv_bind_run. unfold reset.
    destruct (env_reset env (hidden s)) as [[ob h]|].
    + rewrite drv_bind_run.
      match goal with
      | |- context [render_loop env policy max_steps ob 0%Q None ?s0] =>
          destruct (render_loop_plays env policy max_steps ob 0%Q None s0)
            as (evs & Hlog & Hp);
          destruct (render_loop env policy max_steps ob 0%Q None s0)
            as [[q d] s1|e s1]
      end; cbn [final log] in Hlog.
      * rewrite drv_bind_run. unfold emit at 1. cbv beta iota. cbn [fst snd].
        destruct d as [[|]|]; unfold emit, raise; cbn [final hidden log];
          [exists (Reset ob :: evs ++ [Render; PrintEpisodeReward q])
          |exists (Reset ob :: evs ++ [Render; PrintNotTerminal max_steps])
          |exists (Reset ob :: evs ++ [Render])];
          rewrite Hlog, <- !app_assoc; (split; [reflexivity|]);
          cbn [plays]; (apply plays_app; [intros last; exact I|exact Hp]).
      * exists (Reset ob :: evs). cbn [final]. rewrite Hlog, <- !app_assoc.
        split; [reflexivity|exact Hp].
    + exists []. rewrite app_nil_r. split; reflexivity.
  - unfold run_n. rewrite drv_bind_run.
    destruct (episodes_plays env policy max_steps iters 0%Q s)
      as (evs & Hlog & Hp).
    destruct (episodes env policy max_steps iters 0 s) as [q s1|e s1];
      cbn [final] in Hlog.
    + rewrite drv_bind_run. unfold emit at 1. cbv beta iota.
      destruct (iters =? 0); unfold emit, raise; cbn [final hidden log];
        [exists (evs ++ [PrintIterations iters])
        |exists (evs ++ [PrintIterations iters; PrintAverage q iters])];
        rewrite Hlog, <- !app_assoc; (split; [reflexivity|]);
        (apply plays_app; [intros last; exact I|apply Hp]).
    + exists evs. cbn [final]. split; [exact Hlog|apply Hp].
Qed.
